(** * RustPBX Go SDK: session connection, command encoder, endpoint resolver

    A shallow embedding of [sdks/go/rustpbx] (types.go, connection.go,
    client.go) and the properties of its specification that concern the
    wire form of commands, the send/close life cycle, the receive loop,
    Wait-For-Event and the resolution of connection targets.

    Conventions.
    - A Go [error] is its message: [None] is [nil], [Some msg] an error whose
      [Error()] text is [msg]; [fmt.Errorf("ctx: %w", err)] is concatenation.
    - The connection is a value threaded through every operation.  Each
      operation is one atomic transition: the Go code runs its body under
      [c.mu], so concurrent callers are serialised by the mutex and a
      concurrent run is an interleaving of these transitions.
    - Whatever the environment decides (the outcome of a transport write,
      the frames the peer sends, the clock, the random UUID, the result of a
      dial) is an explicit argument of the operation that consumes it. *)

From Stdlib Require Import ZArith Ascii Floats.PrimFloat.
From stdpp Require Import base option strings list gmap sorting pretty.

Set Warnings "-register-all".
Local Open Scope string_scope.

(** ** Errors *)

Definition error := option string.

Definition nil_error : error := None.

(** A Go call returning [(T, error)]. *)
Inductive result (A : Type) : Type :=
| Ok (a : A)
| Err (msg : string).
Arguments Ok {A} a.
Arguments Err {A} msg.

Definition result_bind {A B} (r : result A) (k : A -> result B) : result B :=
  match r with
  | Ok a => k a
  | Err msg => Err msg
  end.

Notation "x <-! r ; k" := (result_bind r (fun x => k))
  (at level 100, r at next level, k at level 200, right associativity,
   format "x  <-!  r ;  '/' k").

Definition result_map {A B} (f : A -> B) (r : result A) : result B :=
  x <-! r; Ok (f x).

Definition result_mapM {A B} (f : A -> result B) : list A -> result (list B) :=
  fix go l :=
    match l with
    | [] => Ok []
    | a :: l' => b <-! f a; bs <-! go l'; Ok (b :: bs)
    end.

(** [fmt.Errorf(prefix ++ ": %w", err)] *)
Definition Errorf_wrap (prefix err : string) : string := prefix +:+ ": " +:+ err.

(** ** JSON values: the wire form of an envelope

    A text frame carries a JSON document.  The model keeps the document as a
    value rather than as bytes; object members stay in emission order. *)

Module json.

Inductive value : Type :=
| Null
| Bool (b : bool)
| Number (n : Z)
| Real (f : float)
| Str (s : string)
| Array (items : list value)
| Object (members : list (string * value)).



Definition member_names (v : value) : list string :=
  match v with
  | Object ms => ms.*1
  | _ => []
  end.

End json.

(** ** Go values as [encoding/json] sees them

    [json.Marshal] works by reflection on the value it is handed.  [goval]
    is that reflected view: the kinds that occur in types.go, the struct tag
    of each field ([json:"name"] or [json:"name,omitempty"]), and the
    distinction between a nil and a non-nil pointer, slice, map or
    interface.  [Unsupported] stands for the dynamic values an
    [interface{}] may hold that [encoding/json] refuses (channels,
    functions, complex numbers). *)

Record field_tag := FieldTag { tag_name : string; tag_omitempty : bool }.

Inductive goval : Type :=
| GBool (b : bool)
| GInt (n : Z)
| GFloat (f : float)
| GString (s : string)
| GPtr (target : option goval)
| GIface (dynamic : option goval)
| GSlice (elems : option (list goval))
| GMap (entries : option (list (string * goval)))
| GStruct (fields : list (field_tag * goval))
| Unsupported (kind : string).

(** [isEmptyValue] of encoding/json/encode.go: what [omitempty] drops. *)
Definition isEmptyValue (v : goval) : bool :=
  match v with
  | GBool b => negb b
  | GInt n => bool_decide (n = 0%Z)
  | GFloat f => PrimFloat.eqb f 0%float
  | GString s => bool_decide (s = "")
  | GPtr p => match p with None => true | Some _ => false end
  | GIface i => match i with None => true | Some _ => false end
  | GSlice l => match l with None => true | Some l => bool_decide (length l = 0) end
  | GMap m => match m with None => true | Some m => bool_decide (length m = 0) end
  | GStruct _ => false
  | Unsupported _ => false
  end.

(** Go emits the entries of a map sorted by key (bytewise). *)
Fixpoint insert_by_key {A} (kv : string * A) (l : list (string * A)) : list (string * A) :=
  match l with
  | [] => [kv]
  | kv' :: l' =>
      if String.leb kv.1 kv'.1 then kv :: l else kv' :: insert_by_key kv l'
  end.

Definition sort_by_key {A} (l : list (string * A)) : list (string * A) :=
  foldr insert_by_key [] l.

(** [json.Marshal], on the reflected value.  A struct emits its fields in
    declaration order, skipping a field tagged [omitempty] whose value
    [isEmptyValue]; a nil pointer, interface, slice or map is [null]; a
    float that is NaN or infinite and a value of an unsupported kind make
    the whole call fail. *)
Fixpoint marshal (v : goval) : result json.value :=
  match v with
  | GBool b => Ok (json.Bool b)
  | GInt n => Ok (json.Number n)
  | GFloat f =>
      if PrimFloat.is_finite f then Ok (json.Real f)
      else Err "json: unsupported value: float64"
  | GString s => Ok (json.Str s)
  | GPtr None => Ok json.Null
  | GPtr (Some t) => marshal t
  | GIface None => Ok json.Null
  | GIface (Some d) => marshal d
  | GSlice None => Ok json.Null
  | GSlice (Some l) => result_map json.Array (result_mapM marshal l)
  | GMap None => Ok json.Null
  | GMap (Some m) =>
      result_map (fun ms => json.Object (sort_by_key ms))
        (result_mapM (fun kv => result_map (pair kv.1) (marshal kv.2)) m)
  | GStruct fs =>
      result_map (fun ms => json.Object (omap id ms))
        (result_mapM
           (fun fv =>
              if tag_omitempty fv.1 && isEmptyValue fv.2 then Ok None
              else result_map (fun j => Some (tag_name fv.1, j)) (marshal fv.2))
           fs)
  | Unsupported kind => Err ("json: unsupported type: " +:+ kind)
  end.


(** A field tagged [json:"name"] and one tagged [json:"name,omitempty"]. *)
Definition fld (name : string) (v : goval) : field_tag * goval :=
  (FieldTag name false, v).

Definition fld_omitempty (name : string) (v : goval) : field_tag * goval :=
  (FieldTag name true, v).

(** A [map[string]interface{}] / [map[string]string]: [None] is the nil map. *)
Definition open_map := option (list (string * goval)).

Definition GStringMap (m : option (list (string * string))) : goval :=
  GMap (fmap (M := list) (fun kv => (kv.1, GString kv.2)) <$> m).

Definition GStrings (l : option (list string)) : goval :=
  GSlice (fmap (M := list) GString <$> l).

(** ** types.go

    One module per Go struct: the record [t] has the struct's fields, in
    order, and [reflect] is the struct as [encoding/json] sees it, with the
    name and the [omitempty] flag of every tag.  The string-based enums
    ([Codec], [Provider], [VADType], ...) are their underlying strings. *)

Module RecorderOption.
Record t := mk { RecorderFile : string; SampleRate : Z; PTime : string }.
Definition reflect (o : t) : goval :=
  GStruct [ fld_omitempty "recorderFile" (GString (RecorderFile o));
            fld_omitempty "samplerate" (GInt (SampleRate o));
            fld_omitempty "ptime" (GString (PTime o)) ].
End RecorderOption.

Module VADOption.
Record t := mk { Type_ : string; Aggressiveness : Z }.
Definition reflect (o : t) : goval :=
  GStruct [ fld_omitempty "type" (GString (Type_ o));
            fld_omitempty "aggressiveness" (GInt (Aggressiveness o)) ].
End VADOption.

Module TranscriptionOption.
Record t := mk {
  Provider : string; Model : string; Language : string; AppID : string;
  SecretID : string; SecretKey : string; ModelType : string;
  BufferSize : Z; SampleRate : Z; Endpoint : string; Extra : open_map }.
Definition reflect (o : t) : goval :=
  GStruct [ fld_omitempty "provider" (GString (Provider o));
            fld_omitempty "model" (GString (Model o));
            fld_omitempty "language" (GString (Language o));
            fld_omitempty "appId" (GString (AppID o));
            fld_omitempty "secretId" (GString (SecretID o));
            fld_omitempty "secretKey" (GString (SecretKey o));
            fld_omitempty "modelType" (GString (ModelType o));
            fld_omitempty "bufferSize" (GInt (BufferSize o));
            fld_omitempty "samplerate" (GInt (SampleRate o));
            fld_omitempty "endpoint" (GString (Endpoint o));
            fld_omitempty "extra" (GMap (Extra o)) ].
End TranscriptionOption.

Module SynthesisOption.
Record t := mk {
  SampleRate : Z; Provider : string; Speed : float; AppID : string;
  SecretID : string; SecretKey : string; Volume : Z; Speaker : string;
  Codec : string; Subtitle : bool; Emotion : string; Endpoint : string;
  Extra : open_map }.
Definition reflect (o : t) : goval :=
  GStruct [ fld_omitempty "samplerate" (GInt (SampleRate o));
            fld_omitempty "provider" (GString (Provider o));
            fld_omitempty "speed" (GFloat (Speed o));
            fld_omitempty "appId" (GString (AppID o));
            fld_omitempty "secretId" (GString (SecretID o));
            fld_omitempty "secretKey" (GString (SecretKey o));
            fld_omitempty "volume" (GInt (Volume o));
            fld_omitempty "speaker" (GString (Speaker o));
            fld_omitempty "codec" (GString (Codec o));
            fld_omitempty "subtitle" (GBool (Subtitle o));
            fld_omitempty "emotion" (GString (Emotion o));
            fld_omitempty "endpoint" (GString (Endpoint o));
            fld_omitempty "extra" (GMap (Extra o)) ].
End SynthesisOption.

Module SipOption.
Record t := mk {
  Username : string; Password : string; Realm : string;
  Headers : option (list (string * string)) }.
Definition reflect (o : t) : goval :=
  GStruct [ fld_omitempty "username" (GString (Username o));
            fld_omitempty "password" (GString (Password o));
            fld_omitempty "realm" (GString (Realm o));
            fld_omitempty "headers" (GStringMap (Headers o)) ].
End SipOption.

Module EouOption.
Record t := mk {
  Type_ : string; Endpoint : string; SecretKey : string; SecretID : string;
  Timeout : Z }.
Definition reflect (o : t) : goval :=
  GStruct [ fld_omitempty "type" (GString (Type_ o));
            fld_omitempty "endpoint" (GString (Endpoint o));
            fld_omitempty "secretKey" (GString (SecretKey o));
            fld_omitempty "secretId" (GString (SecretID o));
            fld_omitempty "timeout" (GInt (Timeout o)) ].
End EouOption.

Module ReferOption.
Record t := mk { Bypass : bool; Timeout : Z; MOH : string; AutoHangup : bool }.
Definition reflect (o : t) : goval :=
  GStruct [ fld_omitempty "bypass" (GBool (Bypass o));
            fld_omitempty "timeout" (GInt (Timeout o));
            fld_omitempty "moh" (GString (MOH o));
            fld_omitempty "autoHangup" (GBool (AutoHangup o)) ].
End ReferOption.

Module CallOption.
Record t := mk {
  Denoise : bool; Offer : string; Callee : string; Caller : string;
  Recorder : option RecorderOption.t; VAD : option VADOption.t;
  ASR : option TranscriptionOption.t; TTS : option SynthesisOption.t;
  HandshakeTimeout : string; EnableIPv6 : bool; SIP : option SipOption.t;
  Extra : open_map; Codec : string; EOU : option EouOption.t }.
Definition reflect (o : t) : goval :=
  GStruct [ fld_omitempty "denoise" (GBool (Denoise o));
            fld_omitempty "offer" (GString (Offer o));
            fld_omitempty "callee" (GString (Callee o));
            fld_omitempty "caller" (GString (Caller o));
            fld_omitempty "recorder" (GPtr (RecorderOption.reflect <$> Recorder o));
            fld_omitempty "vad" (GPtr (VADOption.reflect <$> VAD o));
            fld_omitempty "asr" (GPtr (TranscriptionOption.reflect <$> ASR o));
            fld_omitempty "tts" (GPtr (SynthesisOption.reflect <$> TTS o));
            fld_omitempty "handshakeTimeout" (GString (HandshakeTimeout o));
            fld_omitempty "enableIpv6" (GBool (EnableIPv6 o));
            fld_omitempty "sip" (GPtr (SipOption.reflect <$> SIP o));
            fld_omitempty "extra" (GMap (Extra o));
            fld_omitempty "codec" (GString (Codec o));
            fld_omitempty "eou" (GPtr (EouOption.reflect <$> EOU o)) ].
End CallOption.

Module TTSOptions.
Record t := mk {
  Speaker : string; PlayID : string; AutoHangup : bool; Streaming : bool;
  EndOfStream : bool }.
End TTSOptions.

Module Command.
Record t := mk { Command : string }.
Definition reflect (c : t) : goval :=
  GStruct [ fld "command" (GString (Command c)) ].
End Command.

Module InviteCommand.
Record t := mk { Command : string; Option : option CallOption.t }.
Definition reflect (c : t) : goval :=
  GStruct [ fld "command" (GString (Command c));
            fld "option" (GPtr (CallOption.reflect <$> Option c)) ].
End InviteCommand.

Module AcceptCommand.
Record t := mk { Command : string; Option : option CallOption.t }.
Definition reflect (c : t) : goval :=
  GStruct [ fld "command" (GString (Command c));
            fld "option" (GPtr (CallOption.reflect <$> Option c)) ].
End AcceptCommand.

Module RejectCommand.
Record t := mk { Command : string; Reason : string; Code : Z }.
Definition reflect (c : t) : goval :=
  GStruct [ fld "command" (GString (Command c));
            fld "reason" (GString (Reason c));
            fld "code" (GInt (Code c)) ].
End RejectCommand.

Module CandidateCommand.
Record t := mk { Command : string; Candidates : option (list string) }.
Definition reflect (c : t) : goval :=
  GStruct [ fld "command" (GString (Command c));
            fld "candidates" (GStrings (Candidates c)) ].
End CandidateCommand.

Module TTSCommand.
Record t := mk {
  Command : string; Text : string; Speaker : string; PlayID : string;
  AutoHangup : bool; Streaming : bool; EndOfStream : bool }.
Definition reflect (c : t) : goval :=
  GStruct [ fld "command" (GString (Command c));
            fld "text" (GString (Text c));
            fld_omitempty "speaker" (GString (Speaker c));
            fld_omitempty "playId" (GString (PlayID c));
            fld_omitempty "autoHangup" (GBool (AutoHangup c));
            fld_omitempty "streaming" (GBool (Streaming c));
            fld_omitempty "endOfStream" (GBool (EndOfStream c)) ].
End TTSCommand.

Module PlayCommand.
Record t := mk { Command : string; URL : string; AutoHangup : bool }.
Definition reflect (c : t) : goval :=
  GStruct [ fld "command" (GString (Command c));
            fld "url" (GString (URL c));
            fld_omitempty "autoHangup" (GBool (AutoHangup c)) ].
End PlayCommand.

Module HangupCommand.
Record t := mk { Command : string; Reason : string; Initiator : string }.
Definition reflect (c : t) : goval :=
  GStruct [ fld "command" (GString (Command c));
            fld_omitempty "reason" (GString (Reason c));
            fld_omitempty "initiator" (GString (Initiator c)) ].
End HangupCommand.

Module ReferCommand.
Record t := mk { Command : string; Target : string; Options : option ReferOption.t }.
Definition reflect (c : t) : goval :=
  GStruct [ fld "command" (GString (Command c));
            fld "target" (GString (Target c));
            fld_omitempty "options" (GPtr (ReferOption.reflect <$> Options c)) ].
End ReferCommand.

Module MuteCommand.
Record t := mk { Command : string; TrackID : string }.
Definition reflect (c : t) : goval :=
  GStruct [ fld "command" (GString (Command c));
            fld "trackId" (GString (TrackID c)) ].
End MuteCommand.

Module UnmuteCommand.
Record t := mk { Command : string; TrackID : string }.
Definition reflect (c : t) : goval :=
  GStruct [ fld "command" (GString (Command c));
            fld "trackId" (GString (TrackID c)) ].
End UnmuteCommand.

Module HistoryCommand.
Record t := mk { Command : string; Speaker : string; Text : string }.
Definition reflect (c : t) : goval :=
  GStruct [ fld "command" (GString (Command c));
            fld "speaker" (GString (Speaker c));
            fld "text" (GString (Text c)) ].
End HistoryCommand.

(** [Event]: one decoded inbound frame.  [Data] is a [json.RawMessage], kept
    as its raw text. *)
Module Event.
Record t := mk {
  Event : string; TrackID : string; Timestamp : Z; Caller : string;
  Callee : string; SDP : string; EarlyMedia : bool; Reason : string;
  Initiator : string; Index : Z; StartTime : Z; EndTime : Z; Text : string;
  Duration : Z; Digit : string; Sender : string; Error : string; Code : Z;
  Data : string }.
(** The zero value [Event{}]. *)
Definition zero : t :=
  mk "" "" 0 "" "" "" false "" "" 0 0 0 "" 0 "" "" "" 0 "".
#[export] Instance eq_dec : EqDecision t.
Proof. solve_decision. Defined.
End Event.

Module ConnectionOptions.
Record t := mk { SessionID : string; Dump : bool }.
(** [&ConnectionOptions{}] *)
Definition zero : t := mk "" false.
End ConnectionOptions.

(** ** The transport (gorilla/websocket) *)

Module websocket.

Definition TextMessage : Z := 1.
Definition BinaryMessage : Z := 2.
Definition CloseMessage : Z := 8.
Definition CloseNormalClosure : Z := 1000.

(** A frame handed to [Conn.WriteMessage].  A text frame carries the JSON
    document that [json.Marshal] produced; a close frame is
    [FormatCloseMessage(code, text)]. *)
Inductive frame : Type :=
| Text (data : json.value)
| CloseFrame (code : Z) (text : string).

(** [*websocket.Conn]: the address it was dialled to, the frames it has
    accepted for writing (oldest first), and whether [Conn.Close] has torn
    the socket down. *)
Record Conn := mkConn {
  remote : string;
  written : list frame;
  torn_down : bool }.

(** What [Conn.ReadMessage] returns. *)
Inductive read_result : Type :=
| Message (messageType : Z) (data : string)
| ReadError (err : string).

End websocket.

(** ** connection.go *)

(** [EventHandler], a [func(event *Event)].  A handler supplied by the
    caller is opaque: [Callback id] names it, and calling it is recorded in
    the connection's [calls] log.  [Waiting] is the closure literal of
    [WaitForEvent], with the three variables it captures. *)
Inductive EventHandler : Type :=
| Callback (id : nat)
| Waiting (eventType : string) (eventChan : nat)
    (originalHandler : option EventHandler).

(** [Connection].  [ctx_done] is the state of [c.ctx] (set by [c.cancel()],
    or by the parent context); [done] is whether the [done] channel has been
    closed.  The last two fields are not fields of the Go struct but the part
    of the heap its closures act on: [chans] holds the one-slot channels
    [make(chan *Event, 1)] allocated by [WaitForEvent], indexed by allocation
    order, and [calls] logs every call of a caller-supplied handler with the
    event it was given. *)
Record Connection := mkConnection {
  conn : websocket.Conn;
  ctx_done : bool;
  eventHandler : option EventHandler;
  closed : bool;
  done : bool;
  chans : list (option Event.t);
  calls : list (nat * Event.t) }.

Definition set_conn (k : websocket.Conn) (c : Connection) : Connection :=
  mkConnection k (ctx_done c) (eventHandler c) (closed c) (done c) (chans c) (calls c).

Definition set_ctx_done (b : bool) (c : Connection) : Connection :=
  mkConnection (conn c) b (eventHandler c) (closed c) (done c) (chans c) (calls c).

Definition set_eventHandler (h : option EventHandler) (c : Connection) : Connection :=
  mkConnection (conn c) (ctx_done c) h (closed c) (done c) (chans c) (calls c).

Definition set_closed (b : bool) (c : Connection) : Connection :=
  mkConnection (conn c) (ctx_done c) (eventHandler c) b (done c) (chans c) (calls c).

Definition set_done (b : bool) (c : Connection) : Connection :=
  mkConnection (conn c) (ctx_done c) (eventHandler c) (closed c) b (chans c) (calls c).

Definition set_chans (l : list (option Event.t)) (c : Connection) : Connection :=
  mkConnection (conn c) (ctx_done c) (eventHandler c) (closed c) (done c) l (calls c).

Definition set_calls (l : list (nat * Event.t)) (c : Connection) : Connection :=
  mkConnection (conn c) (ctx_done c) (eventHandler c) (closed c) (done c) (chans c) l.

(** [c.conn.WriteMessage(...)]: [w] is what the transport answers ([None]:
    the frame was written). *)
Definition WriteMessage (w : error) (f : websocket.frame) (c : Connection)
  : error * Connection :=
  match w with
  | None =>
      let k := conn c in
      (None, set_conn (websocket.mkConn (websocket.remote k)
                         (websocket.written k ++ [f]) (websocket.torn_down k)) c)
  | Some err => (Some err, c)
  end.

(** [c.conn.Close()] *)
Definition conn_Close (c : Connection) : Connection :=
  let k := conn c in
  set_conn (websocket.mkConn (websocket.remote k) (websocket.written k) true) c.

(** [c.cancel()] *)
Definition cancel (c : Connection) : Connection := set_ctx_done true c.

(** [NewConnection], once the dial has succeeded: the struct literal, with
    a fresh [done] channel; the receive loop is started on it. *)
Definition newConnection (wsURL : string) : Connection :=
  mkConnection (websocket.mkConn wsURL [] false) false None false false [] [].

(** [NewConnection]: [dial] is the outcome of [dialer.DialContext]. *)
Definition NewConnection (dial : error) (wsURL : string) : result Connection :=
  match dial with
  | Some err => Err (Errorf_wrap "failed to dial WebSocket" err)
  | None => Ok (newConnection wsURL)
  end.

(** [OnEvent] *)
Definition OnEvent (handler : option EventHandler) (c : Connection) : Connection :=
  set_eventHandler handler c.

(** [isClosed] *)
Definition isClosed (c : Connection) : bool := closed c.

(** [Close].  [w] is the outcome of writing the close frame and [cl] that
    of the final [c.conn.Close()].  Both arms of the closing [select]
    ([<-c.done] and the 5 second timer) return [c.conn.Close()], so which
    one fires does not show in the result. *)
Definition Close (w cl : error) (c : Connection) : error * Connection :=
  if closed c then (None, c)
  else
    let c := set_closed true c in
    let c := cancel c in
    match WriteMessage w
            (websocket.CloseFrame websocket.CloseNormalClosure "") c with
    | (Some err, c) => (Some err, conn_Close c)
    | (None, c) => (cl, conn_Close c)
    end.

(** The part of [sendCommand] that runs under [c.mu.Lock()]. *)
Definition sendCommand_locked (w : error) (data : json.value) (c : Connection)
  : error * Connection :=
  if closed c then (Some "connection is closed", c)
  else
    match WriteMessage w (websocket.Text data) c with
    | (Some err, c) => (Some (Errorf_wrap "failed to send command" err), c)
    | (None, c) => (None, c)
    end.

(** [sendCommand].  [w] is the outcome of the transport write, should the
    call get that far. *)
Definition sendCommand (w : error) (command : goval) (c : Connection)
  : error * Connection :=
  if isClosed c then (Some "connection is closed", c)
  else
    match marshal command with
    | Err err => (Some (Errorf_wrap "failed to marshal command" err), c)
    | Ok data => sendCommand_locked w data c
    end.

(** *** The dispatch surface: one method per command *)

Definition Invite (w : error) (option : option CallOption.t) :=
  let cmd := InviteCommand.mk "invite" option in
  sendCommand w (InviteCommand.reflect cmd).

Definition Accept (w : error) (option : option CallOption.t) :=
  let cmd := AcceptCommand.mk "accept" option in
  sendCommand w (AcceptCommand.reflect cmd).

Definition Reject (w : error) (reason : string) (code : Z) :=
  let cmd := RejectCommand.mk "reject" reason code in
  sendCommand w (RejectCommand.reflect cmd).

Definition Candidate (w : error) (candidates : option (list string)) :=
  let cmd := CandidateCommand.mk "candidate" candidates in
  sendCommand w (CandidateCommand.reflect cmd).

Definition TTS_cmd (text speaker playID : string) (options : option TTSOptions.t)
  : TTSCommand.t :=
  let cmd := TTSCommand.mk "tts" text speaker playID false false false in
  match options with
  | Some o =>
      TTSCommand.mk (TTSCommand.Command cmd) (TTSCommand.Text cmd)
        (TTSCommand.Speaker cmd) (TTSCommand.PlayID cmd)
        (TTSOptions.AutoHangup o) (TTSOptions.Streaming o)
        (TTSOptions.EndOfStream o)
  | None => cmd
  end.

Definition TTS (w : error) (text speaker playID : string)
    (options : option TTSOptions.t) :=
  sendCommand w (TTSCommand.reflect (TTS_cmd text speaker playID options)).

Definition TTSSimple (w : error) (text : string) := TTS w text "" "" None.

Definition Play (w : error) (url : string) (autoHangup : bool) :=
  let cmd := PlayCommand.mk "play" url autoHangup in
  sendCommand w (PlayCommand.reflect cmd).

Definition Interrupt (w : error) :=
  sendCommand w (Command.reflect (Command.mk "interrupt")).

Definition Pause (w : error) :=
  sendCommand w (Command.reflect (Command.mk "pause")).

Definition Resume (w : error) :=
  sendCommand w (Command.reflect (Command.mk "resume")).

Definition Hangup (w : error) (reason initiator : string) :=
  let cmd := HangupCommand.mk "hangup" reason initiator in
  sendCommand w (HangupCommand.reflect cmd).

Definition HangupSimple (w : error) := Hangup w "normal_clearing" "caller".

Definition Refer (w : error) (target : string) (options : option ReferOption.t) :=
  let cmd := ReferCommand.mk "refer" target options in
  sendCommand w (ReferCommand.reflect cmd).

Definition Mute (w : error) (trackID : string) :=
  let cmd := MuteCommand.mk "mute" trackID in
  sendCommand w (MuteCommand.reflect cmd).

Definition Unmute (w : error) (trackID : string) :=
  let cmd := UnmuteCommand.mk "unmute" trackID in
  sendCommand w (UnmuteCommand.reflect cmd).

Definition History (w : error) (speaker text : string) :=
  let cmd := HistoryCommand.mk "history" speaker text in
  sendCommand w (HistoryCommand.reflect cmd).

Definition SendRawCommand (w : error) (command : open_map) :=
  sendCommand w (GMap command).

(** A call of one of the methods above, with its arguments. *)
Inductive api_call : Type :=
| CallInvite (option : option CallOption.t)
| CallAccept (option : option CallOption.t)
| CallReject (reason : string) (code : Z)
| CallCandidate (candidates : option (list string))
| CallTTS (text speaker playID : string) (options : option TTSOptions.t)
| CallTTSSimple (text : string)
| CallPlay (url : string) (autoHangup : bool)
| CallInterrupt
| CallPause
| CallResume
| CallHangup (reason initiator : string)
| CallHangupSimple
| CallRefer (target : string) (options : option ReferOption.t)
| CallMute (trackID : string)
| CallUnmute (trackID : string)
| CallHistory (speaker text : string)
| CallSendRawCommand (command : open_map).

Definition perform (w : error) (call : api_call) : Connection -> error * Connection :=
  match call with
  | CallInvite option => Invite w option
  | CallAccept option => Accept w option
  | CallReject reason code => Reject w reason code
  | CallCandidate candidates => Candidate w candidates
  | CallTTS text speaker playID options => TTS w text speaker playID options
  | CallTTSSimple text => TTSSimple w text
  | CallPlay url autoHangup => Play w url autoHangup
  | CallInterrupt => Interrupt w
  | CallPause => Pause w
  | CallResume => Resume w
  | CallHangup reason initiator => Hangup w reason initiator
  | CallHangupSimple => HangupSimple w
  | CallRefer target options => Refer w target options
  | CallMute trackID => Mute w trackID
  | CallUnmute trackID => Unmute w trackID
  | CallHistory speaker text => History w speaker text
  | CallSendRawCommand command => SendRawCommand w command
  end.


(** The value each method hands to [sendCommand]. *)
Definition envelope (call : api_call) : goval :=
  match call with
  | CallInvite option => InviteCommand.reflect (InviteCommand.mk "invite" option)
  | CallAccept option => AcceptCommand.reflect (AcceptCommand.mk "accept" option)
  | CallReject reason code =>
      RejectCommand.reflect (RejectCommand.mk "reject" reason code)
  | CallCandidate candidates =>
      CandidateCommand.reflect (CandidateCommand.mk "candidate" candidates)
  | CallTTS text speaker playID options =>
      TTSCommand.reflect (TTS_cmd text speaker playID options)
  | CallTTSSimple text => TTSCommand.reflect (TTS_cmd text "" "" None)
  | CallPlay url autoHangup => PlayCommand.reflect (PlayCommand.mk "play" url autoHangup)
  | CallInterrupt => Command.reflect (Command.mk "interrupt")
  | CallPause => Command.reflect (Command.mk "pause")
  | CallResume => Command.reflect (Command.mk "resume")
  | CallHangup reason initiator =>
      HangupCommand.reflect (HangupCommand.mk "hangup" reason initiator)
  | CallHangupSimple =>
      HangupCommand.reflect (HangupCommand.mk "hangup" "normal_clearing" "caller")
  | CallRefer target options =>
      ReferCommand.reflect (ReferCommand.mk "refer" target options)
  | CallMute trackID => MuteCommand.reflect (MuteCommand.mk "mute" trackID)
  | CallUnmute trackID => UnmuteCommand.reflect (UnmuteCommand.mk "unmute" trackID)
  | CallHistory speaker text =>
      HistoryCommand.reflect (HistoryCommand.mk "history" speaker text)
  | CallSendRawCommand command => GMap command
  end.

(** *** Handlers and the receive loop *)

(** The non-blocking send [select { case eventChan <- event: default: }] on
    a channel of capacity one: the event is stored if the slot is free and
    dropped otherwise. *)
Definition chan_try_send (ch : nat) (event : Event.t) (c : Connection) : Connection :=
  match chans c !! ch with
  | Some None => set_chans (<[ch := Some event]> (chans c)) c
  | _ => c
  end.

(** The receive [<-eventChan], when the slot is full. *)
Definition chan_recv (ch : nat) (c : Connection) : option (Event.t * Connection) :=
  match chans c !! ch with
  | Some (Some event) => Some (event, set_chans (<[ch := None]> (chans c)) c)
  | _ => None
  end.

(** Calling a handler on an event.  For [Waiting] this is the body of the
    closure in [WaitForEvent]: publish if the discriminator matches, then
    call the captured handler, if any, on the same event. *)
Fixpoint invoke (handler : EventHandler) (event : Event.t) (c : Connection)
  : Connection :=
  match handler with
  | Callback id => set_calls (calls c ++ [(id, event)]) c
  | Waiting eventType eventChan originalHandler =>
      let c :=
        if decide (Event.Event event = eventType)
        then chan_try_send eventChan event c
        else c in
      match originalHandler with
      | Some h => invoke h event c
      | None => c
      end
  end.

(** [if handler != nil { handler(event) }] *)
Definition dispatch (event : Event.t) (c : Connection) : Connection :=
  match eventHandler c with
  | Some handler => invoke handler event c
  | None => c
  end.

(** The event [handleError] builds; [now] is [time.Now().UnixMilli()]. *)
Definition errorEvent (now : Z) (err : string) : Event.t :=
  Event.mk "error" "" now "" "" "" false "" "" 0 0 0 "" 0 "" "" err 0 "".

(** [handleError] *)
Definition handleError (now : Z) (err : string) (c : Connection) : Connection :=
  match eventHandler c with
  | Some handler => invoke handler (errorEvent now err) c
  | None => c
  end.

(** One turn of the environment as the receive loop sees it: what
    [ReadMessage] returns, and the clock at that moment. *)
Record incoming := Incoming { now : Z; read : websocket.read_result }.

(** How far [readLoop] got on the frames it was given. *)
Inductive loop_status : Type :=
| Exited      (* the function returned; [done] is closed *)
| Reading.    (* blocked in [ReadMessage], no further input *)

Section Receive.

(** [json.Unmarshal(data, &event)], on the raw text of a frame. *)
Variable json_Unmarshal : string -> result Event.t.

(** [handleMessage] *)
Definition handleMessage (now : Z) (data : string) (c : Connection) : Connection :=
  match json_Unmarshal data with
  | Err err => handleError now (Errorf_wrap "failed to parse event" err) c
  | Ok event => dispatch event c
  end.

(** The body of the loop from the point where [ReadMessage] has returned:
    the connection afterwards, and whether the loop goes round again. *)
Definition readLoop_received (i : incoming) (c : Connection) : bool * Connection :=
  match read i with
  | websocket.ReadError err =>
      (false,
       if negb (isClosed c)
       then handleError (now i) (Errorf_wrap "WebSocket read error" err) c
       else c)
  | websocket.Message messageType data =>
      (true,
       if decide (messageType = websocket.TextMessage)
       then handleMessage (now i) data c
       else c)
  end.

(** [readLoop] on the frames [inputs]; [defer close(c.done)] runs on every
    return. *)
Fixpoint readLoop (inputs : list incoming) (c : Connection)
  : loop_status * Connection :=
  if ctx_done c then (Exited, set_done true c)
  else
    match inputs with
    | [] => (Reading, c)
    | i :: inputs' =>
        let '(again, c) := readLoop_received i c in
        if again then readLoop inputs' c else (Exited, set_done true c)
    end.

End Receive.

(** *** Interleavings

    What the other goroutines can do to a connection, one atomic step at a
    time: a call on the send path, [Close], a change of handler ([OnEvent],
    or the deferred restore of some other [WaitForEvent]), the entry of
    another goroutine into [WaitForEvent], a turn of the receive loop, the
    loop noticing [ctx.Done()], and the cancellation of the parent
    context. *)
Inductive action : Type :=
| ASend (w : error) (call : api_call)
| AClose (w cl : error)
| ASetHandler (handler : option EventHandler)
| AWaitInstall (eventType : string)
| AReceived (i : incoming)
| ALoopCheck
| AParentCancel.

(** The first part of [WaitForEvent]: allocate the channel, capture the
    active handler, install the closure. *)
Definition WaitForEvent_install (eventType : string) (c : Connection) : Connection :=
  let eventChan := length (chans c) in
  let c := set_chans (chans c ++ [None]) c in
  let originalHandler := eventHandler c in
  set_eventHandler (Some (Waiting eventType eventChan originalHandler)) c.

(** The cases of the [select] in [WaitForEvent]. *)
Inductive select_case : Type :=
| CaseEvent       (* event := <-eventChan *)
| CaseTimeout     (* <-time.After(timeout) *)
| CaseCtxDone.    (* <-c.ctx.Done() *)

(** What [WaitForEvent] returns when the [select] proceeds with the given
    case; [None] when that case cannot proceed in [c].  The timer is the
    caller's: it may fire at any point. *)
Definition WaitForEvent_select (case : select_case) (eventType : string)
    (eventChan : nat) (c : Connection)
  : option ((option Event.t * error) * Connection) :=
  match case with
  | CaseEvent =>
      match chan_recv eventChan c with
      | Some (event, c) => Some ((Some event, None), c)
      | None => None
      end
  | CaseTimeout =>
      Some ((None, Some ("timeout waiting for event: " +:+ eventType)), c)
  | CaseCtxDone =>
      if ctx_done c
      then Some ((None,
                  Some ("connection closed while waiting for event: " +:+ eventType)),
                 c)
      else None
  end.

Section Concurrent.

Variable json_Unmarshal : string -> result Event.t.

Definition step (a : action) (c : Connection) : Connection :=
  match a with
  | ASend w call => (perform w call c).2
  | AClose w cl => (Close w cl c).2
  | ASetHandler handler => OnEvent handler c
  | AWaitInstall eventType => WaitForEvent_install eventType c
  | AReceived i =>
      if done c then c
      else
        let '(again, c) := readLoop_received json_Unmarshal i c in
        if again then c else set_done true c
  | ALoopCheck =>
      if done c then c
      else if ctx_done c then set_done true c else c
  | AParentCancel => cancel c
  end.

Definition run (acts : list action) (c : Connection) : Connection :=
  foldl (fun c a => step a c) c acts.

(** [WaitForEvent].  [during] is what the other goroutines do while the
    caller is blocked in the [select], and [case] the case the [select]
    then proceeds with.  The result is [None] when that case is not ready
    at that point (no run of the Go function looks like this).  The handler
    is restored by the deferred function on every return. *)
Definition WaitForEvent (eventType : string) (during : list action)
    (case : select_case) (c : Connection)
  : option ((option Event.t * error) * Connection) :=
  let eventChan := length (chans c) in
  let originalHandler := eventHandler c in
  let c := WaitForEvent_install eventType c in
  let c := run during c in
  match WaitForEvent_select case eventType eventChan c with
  | Some (r, c) => Some (r, set_eventHandler originalHandler c)
  | None => None
  end.

End Concurrent.

(** ** client.go *)

(** *** The functions of package [strings] that client.go calls *)

Module gostrings.

Definition HasPrefix (s prefix : string) : bool := String.prefix prefix s.

Fixpoint drop (n : nat) (s : string) : string :=
  match n, s with
  | O, _ => s
  | S n', String _ s' => drop n' s'
  | S _, EmptyString => ""
  end.

Definition HasSuffix (s suffix : string) : bool :=
  bool_decide (drop (String.length s - String.length suffix) s = suffix).

Definition TrimSuffix (s suffix : string) : string :=
  if HasSuffix s suffix
  then String.substring 0 (String.length s - String.length suffix) s
  else s.

(** [strings.Replace(s, old, new, 1)]: the first occurrence only. *)
Fixpoint Replace1 (s old new : string) : string :=
  if String.prefix old s then new +:+ drop (String.length old) s
  else
    match s with
    | EmptyString => ""
    | String a s' => String a (Replace1 s' old new)
    end.

(** [strings.Cut(s, sep)] for a one-byte separator. *)
Fixpoint Cut (s : string) (sep : ascii) : string * string * bool :=
  match s with
  | EmptyString => ("", "", false)
  | String a s' =>
      if decide (a = sep) then ("", s', true)
      else
        let '(before, after, found) := Cut s' sep in
        (String a before, after, found)
  end.

Fixpoint Contains (s : string) (ch : ascii) : bool :=
  match s with
  | EmptyString => false
  | String a s' => bool_decide (a = ch) || Contains s' ch
  end.

(** [strings.Count(s, sep)] for a one-byte separator. *)
Fixpoint Count (s : string) (ch : ascii) : nat :=
  match s with
  | EmptyString => 0
  | String a s' => (if decide (a = ch) then 1 else 0) + Count s' ch
  end.

(** The split of [s] at the last occurrence of [ch]: [s[:i]] and [s[i:]],
    or [None] when [strings.LastIndex] is negative. *)
Fixpoint cut_last (s : string) (ch : ascii) : option (string * string) :=
  match s with
  | EmptyString => None
  | String a s' =>
      match cut_last s' ch with
      | Some (before, from) => Some (String a before, from)
      | None => if decide (a = ch) then Some ("", s) else None
      end
  end.

Definition ToLower_byte (a : ascii) : ascii :=
  let n := Ascii.nat_of_ascii a in
  if bool_decide (65 <= n <= 90) then Ascii.ascii_of_nat (n + 32) else a.

Fixpoint ToLower (s : string) : string :=
  match s with
  | EmptyString => ""
  | String a s' => String (ToLower_byte a) (ToLower s')
  end.

Fixpoint all_bytes (p : ascii -> bool) (s : string) : bool :=
  match s with
  | EmptyString => true
  | String a s' => p a && all_bytes p s'
  end.

End gostrings.

(** *** Package [net/url], as far as client.go uses it

    [URL] keeps each component as it is written in the address: [Authority]
    is the text between [//] and the path (Go's [User] and [Host]), [Path]
    and [Fragment] are in their escaped form ([EscapedPath],
    [EscapedFragment]).  [Parse] splits an address the way Go's does and
    rejects what Go's rejects for a control byte, a missing scheme, a colon
    in the first segment of a relative path, a malformed port, host,
    userinfo or percent escape; [String] puts the components back together.
    (Go re-escapes a component whose text is not in canonical form; zone
    identifiers of IPv6 literals are checked like the rest of the host.) *)

Module neturl.

Record URL := mkURL {
  Scheme : string;
  Opaque : string;
  Authority : string;
  Path : string;
  OmitHost : bool;
  ForceQuery : bool;
  RawQuery : string;
  Fragment : string }.

Definition set_RawQuery (q : string) (u : URL) : URL :=
  mkURL (Scheme u) (Opaque u) (Authority u) (Path u) (OmitHost u)
    (ForceQuery u) q (Fragment u).

Definition set_Fragment (f : string) (u : URL) : URL :=
  mkURL (Scheme u) (Opaque u) (Authority u) (Path u) (OmitHost u)
    (ForceQuery u) (RawQuery u) f.

Definition byte_in (lo hi : nat) (c : ascii) : bool :=
  let n := nat_of_ascii c in bool_decide (lo <= n <= hi).

Definition is_alpha (c : ascii) : bool := byte_in 97 122 c || byte_in 65 90 c.
Definition is_digit (c : ascii) : bool := byte_in 48 57 c.
Definition is_alnum (c : ascii) : bool := is_alpha c || is_digit c.
Definition ishex (c : ascii) : bool :=
  is_digit c || byte_in 97 102 c || byte_in 65 70 c.

Definition unhex (c : ascii) : nat :=
  let n := nat_of_ascii c in
  if is_digit c then n - 48
  else if byte_in 97 102 c then n - 97 + 10
  else if byte_in 65 70 c then n - 65 + 10
  else 0.

Definition one_of (set : string) (c : ascii) : bool := gostrings.Contains set c.

Definition double_quote : ascii := ascii_of_nat 34.

(** [stringContainsCTLByte] *)
Definition stringContainsCTLByte (s : string) : bool :=
  negb (gostrings.all_bytes
          (fun c => negb (byte_in 0 31 c || bool_decide (nat_of_ascii c = 127))) s).

Fixpoint getScheme_scan (at_start : bool) (s : string)
  : result (option (string * string)) :=
  match s with
  | EmptyString => Ok None
  | String c s' =>
      let continue :=
        r <-! getScheme_scan false s';
        Ok (match r with
            | Some (scheme, rest) => Some (String c scheme, rest)
            | None => None
            end) in
      if is_alpha c then continue
      else if is_digit c || one_of "+-." c then
        if at_start then Ok None else continue
      else if bool_decide (c = ":"%char) then
        if at_start then Err "missing protocol scheme" else Ok (Some ("", s'))
      else Ok None
  end.

(** [getScheme]: the scheme and what follows the colon; no scheme and the
    whole address when there is none. *)
Definition getScheme (rawURL : string) : result (string * string) :=
  r <-! getScheme_scan true rawURL;
  Ok (match r with Some p => p | None => ("", rawURL) end).

(** Every [%] is followed by two hexadecimal digits. *)
Fixpoint valid_escapes (s : string) : bool :=
  match s with
  | EmptyString => true
  | String c s' =>
      if bool_decide (c = "%"%char) then
        match s' with
        | String h1 (String h2 _) => ishex h1 && ishex h2 && valid_escapes s'
        | _ => false
        end
      else valid_escapes s'
  end.

(** [validOptionalPort] *)
Definition validOptionalPort (port : string) : bool :=
  match port with
  | EmptyString => true
  | String c digits => bool_decide (c = ":"%char) && gostrings.all_bytes is_digit digits
  end.

(** A byte that may stand unescaped in a host ([shouldEscape] is false in
    mode [encodeHost]), or is outside ASCII. *)
Definition host_byte (c : ascii) : bool :=
  is_alnum c || one_of "!$&'()*+,;=:[]<>" c || bool_decide (c = double_quote)
  || one_of "-_.~" c || byte_in 128 255 c.

(** [unescape(host, encodeHost)] succeeds. *)
Fixpoint valid_host_text (s : string) : bool :=
  match s with
  | EmptyString => true
  | String c s' =>
      if bool_decide (c = "%"%char) then
        match s' with
        | String h1 (String h2 _) =>
            ishex h1 && ishex h2
            && (bool_decide (8 <= unhex h1) || bool_decide ((h1, h2) = ("2"%char, "5"%char)))
            && valid_host_text s'
        | _ => false
        end
      else host_byte c && valid_host_text s'
  end.

(** [parseHost] succeeds. *)
Definition valid_host (host : string) : bool :=
  (if gostrings.HasPrefix host "["
   then
     match gostrings.cut_last host "]"%char with
     | Some (_, from) => validOptionalPort (gostrings.drop 1 from)
     | None => false
     end
   else
     match gostrings.cut_last host ":"%char with
     | Some (_, colonPort) => validOptionalPort colonPort
     | None => true
     end)
  && valid_host_text host.

(** [validUserinfo] *)
Definition validUserinfo (s : string) : bool :=
  gostrings.all_bytes (fun c => is_alnum c || one_of "-._:~!$&'()*+,;=%@" c) s.

(** [parseAuthority] succeeds. *)
Definition valid_authority (authority : string) : bool :=
  match gostrings.cut_last authority "@"%char with
  | None => valid_host authority
  | Some (userinfo, from) =>
      valid_host (gostrings.drop 1 from)
      && validUserinfo userinfo && valid_escapes userinfo
  end.

(** [parse(rawURL, false)]: an address without its fragment. *)
Definition parse (rawURL : string) : result URL :=
  if stringContainsCTLByte rawURL
  then Err "net/url: invalid control character in URL"
  else if bool_decide (rawURL = "*")
  then Ok (mkURL "" "" "" "*" false false "" "")
  else
    p <-! getScheme rawURL;
    let scheme := gostrings.ToLower p.1 in
    let rest := p.2 in
    let '(rest, rawQuery, forceQuery) :=
      if gostrings.HasSuffix rest "?"
         && bool_decide (gostrings.Count rest "?"%char = 1)
      then (String.substring 0 (String.length rest - 1) rest, "", true)
      else
        let '(before, after, _) := gostrings.Cut rest "?"%char in
        (before, after, false) in
    if negb (gostrings.HasPrefix rest "/") && negb (bool_decide (scheme = ""))
    then Ok (mkURL scheme rest "" "" false forceQuery rawQuery "")
    else if negb (gostrings.HasPrefix rest "/")
            && gostrings.Contains (gostrings.Cut rest "/"%char).1.1 ":"%char
    then Err "first path segment in URL cannot contain colon"
    else if (negb (bool_decide (scheme = ""))
             || negb (gostrings.HasPrefix rest "///"))
            && gostrings.HasPrefix rest "//"
    then
      let '(authority, after, found) :=
        gostrings.Cut (gostrings.drop 2 rest) "/"%char in
      let rest := if found then String "/"%char after else "" in
      if negb (valid_authority authority)
      then Err "net/url: invalid authority"
      else if negb (valid_escapes rest)
      then Err "invalid URL escape"
      else Ok (mkURL scheme "" authority rest false forceQuery rawQuery "")
    else
      let omitHost :=
        negb (bool_decide (scheme = "")) && gostrings.HasPrefix rest "/" in
      if negb (valid_escapes rest)
      then Err "invalid URL escape"
      else Ok (mkURL scheme "" "" rest omitHost forceQuery rawQuery "").

(** [url.Parse] *)
Definition Parse (rawURL : string) : result URL :=
  let '(u, frag, _) := gostrings.Cut rawURL "#"%char in
  url <-! parse u;
  if bool_decide (frag = "") then Ok url
  else if negb (valid_escapes frag) then Err "invalid URL escape"
  else Ok (set_Fragment frag url).

(** [URL.String] *)
Definition String_ (u : URL) : string :=
  (if bool_decide (Scheme u = "") then "" else Scheme u +:+ ":")
  +:+ (if bool_decide (Opaque u = "")
       then
         (if negb (bool_decide (Scheme u = ""))
             || negb (bool_decide (Authority u = ""))
          then
            if OmitHost u && bool_decide (Authority u = "") then ""
            else
              (if negb (bool_decide (Authority u = ""))
                  || negb (bool_decide (Path u = ""))
               then "//" else "")
              +:+ Authority u
          else "")
         +:+ (if negb (bool_decide (Path u = ""))
                 && negb (gostrings.HasPrefix (Path u) "/")
                 && negb (bool_decide (Authority u = ""))
              then "/" else "")
         +:+ (if bool_decide (Scheme u = "") && bool_decide (Authority u = "")
                 && gostrings.Contains (gostrings.Cut (Path u) "/"%char).1.1 ":"%char
              then "./" else "")
         +:+ Path u
       else Opaque u)
  +:+ (if ForceQuery u || negb (bool_decide (RawQuery u = ""))
       then "?" +:+ RawQuery u else "")
  +:+ (if bool_decide (Fragment u = "") then "" else "#" +:+ Fragment u).

(** [url.Values], a [map[string][]string]. *)
Abbreviation Values := (gmap string (list string)).

(** [Values.Set] *)
Definition Set_ (key value : string) (v : Values) : Values :=
  <[key := [value]]> v.

(** [Values.Get]: the first value of the key, or the empty string. *)
Definition Get (key : string) (v : Values) : string :=
  match v !! key with
  | Some (value :: _) => value
  | _ => ""
  end.

Definition upperhex (n : nat) : ascii :=
  if bool_decide (n < 10) then ascii_of_nat (48 + n) else ascii_of_nat (55 + n).

(** [shouldEscape(c, encodeQueryComponent)] is false. *)
Definition query_unreserved (c : ascii) : bool :=
  is_alnum c || one_of "-_.~" c.

(** What [url.QueryEscape] writes for one byte: the byte itself, [+] for
    a space, or [%XX]. *)
Definition escape_byte (c : ascii) : string :=
  if query_unreserved c then String c ""
  else if bool_decide (c = " "%char) then "+"
  else
    let n := nat_of_ascii c in
    String "%"%char (String (upperhex (n / 16)) (String (upperhex (n mod 16)) "")).

(** [url.QueryEscape] *)
Fixpoint QueryEscape (s : string) : string :=
  match s with
  | EmptyString => ""
  | String c s' => escape_byte c +:+ QueryEscape s'
  end.

(** [url.QueryUnescape] *)
Fixpoint QueryUnescape (s : string) : result string :=
  match s with
  | EmptyString => Ok ""
  | String c s' =>
      if bool_decide (c = "%"%char) then
        match s' with
        | String h1 (String h2 s'') =>
            if ishex h1 && ishex h2
            then
              r <-! QueryUnescape s'';
              Ok (String (ascii_of_nat (unhex h1 * 16 + unhex h2)) r)
            else Err "invalid URL escape"
        | _ => Err "invalid URL escape"
        end
      else
        r <-! QueryUnescape s';
        Ok (String (if bool_decide (c = "+"%char) then " "%char else c) r)
  end.

Fixpoint split (sep : ascii) (s : string) : list string :=
  match s with
  | EmptyString => [""]
  | String c s' =>
      if decide (c = sep) then "" :: split sep s'
      else
        match split sep s' with
        | piece :: pieces => String c piece :: pieces
        | [] => [String c ""]
        end
  end.

(** One turn of the loop of [parseQuery], on the text between two [&]. *)
Definition parseQuery_piece (m : Values) (piece : string) : Values :=
  if gostrings.Contains piece ";"%char then m
  else if bool_decide (piece = "") then m
  else
    let '(key, value, _) := gostrings.Cut piece "="%char in
    match QueryUnescape key, QueryUnescape value with
    | Ok key, Ok value => <[key := (default [] (m !! key) ++ [value])%list]> m
    | _, _ => m
    end.

(** [URL.Query]: [ParseQuery(u.RawQuery)], whose error is dropped; the
    pieces that fail to parse leave no entry. *)
Definition ParseQuery (query : string) : Values :=
  foldl parseQuery_piece ∅ (split "&"%char query).

Definition Query (u : URL) : Values := ParseQuery (RawQuery u).

(** The [key=value] pieces of [Values.Encode], keys in sorted order. *)
Definition Encode_pieces (v : Values) : list string :=
  flat_map
    (fun kvs => (fun value => QueryEscape kvs.1 +:+ "=" +:+ QueryEscape value) <$> kvs.2)
    (sort_by_key (map_to_list v)).

Fixpoint join (sep : string) (pieces : list string) : string :=
  match pieces with
  | [] => ""
  | [piece] => piece
  | piece :: pieces' => piece +:+ sep +:+ join sep pieces'
  end.

(** [Values.Encode] *)
Definition Encode (v : Values) : string := join "&" (Encode_pieces v).

End neturl.

(** *** Package [github.com/google/uuid] *)

Module uuid.

(** A [UUID] is sixteen bytes. *)
Definition UUID := list ascii.

Definition lowerhex (n : nat) : ascii :=
  if bool_decide (n < 10) then ascii_of_nat (48 + n) else ascii_of_nat (87 + n).

Fixpoint hex (bytes : list ascii) : string :=
  match bytes with
  | [] => ""
  | b :: bytes' =>
      let n := nat_of_ascii b in
      String (lowerhex (n / 16)) (String (lowerhex (n mod 16)) (hex bytes'))
  end.

(** [UUID.String]: xxxxxxxx-xxxx-xxxx-xxxx-xxxxxxxxxxxx *)
Definition String_ (u : UUID) : string :=
  hex (take 4 u) +:+ "-" +:+ hex (take 2 (drop 4 u)) +:+ "-"
  +:+ hex (take 2 (drop 6 u)) +:+ "-" +:+ hex (take 2 (drop 8 u)) +:+ "-"
  +:+ hex (take 6 (drop 10 u)).

End uuid.

(** *** The client *)

(** [Client]; its [httpClient] serves only the one-shot HTTP calls. *)
Module Client.
Record t := mk { baseURL : string }.
End Client.

(** [NewClient] *)
Definition NewClient (baseURL : string) : Client.t :=
  let baseURL := gostrings.TrimSuffix baseURL "/" in
  Client.mk baseURL.

(** [fmt.Sprintf("%t", b)] *)
Definition Sprintf_t (b : bool) : string := if b then "true" else "false".

(** The address [buildWebSocketURL] hands to [url.Parse], before the
    endpoint is appended: the base address with its scheme translated. *)
Definition translate_scheme (baseURL : string) : string :=
  let wsURL := baseURL in
  if gostrings.HasPrefix wsURL "http://"
  then gostrings.Replace1 wsURL "http://" "ws://"
  else if gostrings.HasPrefix wsURL "https://"
  then gostrings.Replace1 wsURL "https://" "wss://"
  else if negb (gostrings.HasPrefix wsURL "ws://")
          && negb (gostrings.HasPrefix wsURL "wss://")
  then "ws://" +:+ wsURL
  else wsURL.

(** The [url.URL] that [buildWebSocketURL] renders: the parsed address with
    the query parameters set. *)
Definition resolve (c : Client.t) (endpoint sessionID : string) (dump : bool)
  : result neturl.URL :=
  let wsURL := translate_scheme (Client.baseURL c) in
  u <-! neturl.Parse (wsURL +:+ endpoint);
  let q := neturl.Query u in
  let q := if negb (bool_decide (sessionID = ""))
           then neturl.Set_ "id" sessionID q else q in
  let q := neturl.Set_ "dump" (Sprintf_t dump) q in
  Ok (neturl.set_RawQuery (neturl.Encode q) u).

(** [buildWebSocketURL] *)
Definition buildWebSocketURL (c : Client.t) (endpoint sessionID : string)
    (dump : bool) : result string :=
  u <-! resolve c endpoint sessionID dump;
  Ok (neturl.String_ u).

(** [connectWebSocket].  [fresh] is the UUID that [uuid.New()] draws and
    [dial] the outcome of the dial, should the call get that far. *)
Definition connectWebSocket (fresh : uuid.UUID) (dial : error) (c : Client.t)
    (endpoint : string) (options : option ConnectionOptions.t)
  : result Connection :=
  let options := default ConnectionOptions.zero options in
  let sessionID := ConnectionOptions.SessionID options in
  let sessionID :=
    if bool_decide (sessionID = "") then uuid.String_ fresh else sessionID in
  match buildWebSocketURL c endpoint sessionID (ConnectionOptions.Dump options) with
  | Err err => Err (Errorf_wrap "failed to build WebSocket URL" err)
  | Ok wsURL =>
      match NewConnection dial wsURL with
      | Err err => Err (Errorf_wrap "failed to create WebSocket connection" err)
      | Ok conn => Ok conn
      end
  end.

Definition ConnectCall (fresh : uuid.UUID) (dial : error) (c : Client.t) :=
  connectWebSocket fresh dial c "/call".

Definition ConnectWebRTC (fresh : uuid.UUID) (dial : error) (c : Client.t) :=
  connectWebSocket fresh dial c "/call/webrtc".

Definition ConnectSIP (fresh : uuid.UUID) (dial : error) (c : Client.t) :=
  connectWebSocket fresh dial c "/call/sip".

(** The three public connect paths. *)
Inductive connect_path : Type := PathCall | PathWebRTC | PathSIP.

Definition connect (path : connect_path) :=
  match path with
  | PathCall => ConnectCall
  | PathWebRTC => ConnectWebRTC
  | PathSIP => ConnectSIP
  end.

(** *** The one-shot HTTP calls

    [Call], [CallListResponse] and [ICEServer] are the decoded bodies;
    [CreatedAt], a [time.Time], is kept as Unix nanoseconds. *)

Module Call.
Record t := mk {
  ID : string; CallType : string; CreatedAt : Z; Option : option CallOption.t }.
End Call.

Module CallListResponse.
Record t := mk { Calls : option (list Call.t) }.
End CallListResponse.

Module ICEServer.
Record t := mk {
  URLs : option (list string); Username : option string;
  Credential : option string }.
End ICEServer.

(** Package [net/http], as far as the one-shot calls use it: a request is
    its method, its parsed address and its header; a response its status
    code and its body, read to the end. *)
Module http.

Definition StatusOK : Z := 200.
Definition StatusNotFound : Z := 404.

Record Request := mkRequest {
  Method : string; URL : neturl.URL; Header : list (string * string) }.

Record Response := mkResponse { StatusCode : Z; Body : string }.

(** [http.NewRequestWithContext] for the methods [GET] and [POST] and a
    context that is not nil: it fails exactly when the address does not
    parse. *)
Definition NewRequestWithContext (method url : string) : result Request :=
  u <-! neturl.Parse url;
  Ok (mkRequest method u []).

(** [req.Header.Set(key, value)], for a key in canonical form. *)
Definition Header_Set (key value : string) (req : Request) : Request :=
  mkRequest (Method req) (URL req)
    ((key, value) :: filter (fun kv => kv.1 <> key) (Header req)).

End http.

(** The part the three calls share: build the request, set the content
    type, hand it to [c.httpClient.Do].  [Do] is the HTTP client. *)
Definition one_shot (Do : http.Request -> result http.Response)
    (method url : string) : result http.Response :=
  match http.NewRequestWithContext method url with
  | Err err => Err (Errorf_wrap "failed to create request" err)
  | Ok req =>
      let req := http.Header_Set "Content-Type" "application/json" req in
      match Do req with
      | Err err => Err (Errorf_wrap "failed to make request" err)
      | Ok resp => Ok resp
      end
  end.

(** [fmt.Errorf("API request failed with status %d: %s", ...)] *)
Definition status_error (resp : http.Response) : string :=
  "API request failed with status " +:+ pretty (http.StatusCode resp)
  +:+ ": " +:+ http.Body resp.

(** [GetActiveCalls].  [decode] is [json.NewDecoder(resp.Body).Decode]. *)
Definition GetActiveCalls (Do : http.Request -> result http.Response)
    (decode : string -> result CallListResponse.t) (c : Client.t)
  : result CallListResponse.t :=
  let url := Client.baseURL c +:+ "/call/lists" in
  resp <-! one_shot Do "GET" url;
  if negb (bool_decide (http.StatusCode resp = http.StatusOK))
  then Err (status_error resp)
  else
    match decode (http.Body resp) with
    | Err err => Err (Errorf_wrap "failed to decode response" err)
    | Ok result => Ok result
    end.

(** [KillCall] *)
Definition KillCall (Do : http.Request -> result http.Response) (c : Client.t)
    (callID : string) : error :=
  let url := Client.baseURL c +:+ "/call/kill/" +:+ callID in
  match one_shot Do "POST" url with
  | Err err => Some err
  | Ok resp =>
      if bool_decide (http.StatusCode resp = http.StatusNotFound)
      then Some ("call with ID " +:+ callID +:+ " not found")
      else if negb (bool_decide (http.StatusCode resp = http.StatusOK))
      then Some (status_error resp)
      else None
  end.

(** [GetICEServers] *)
Definition GetICEServers (Do : http.Request -> result http.Response)
    (decode : string -> result (list ICEServer.t)) (c : Client.t)
  : result (list ICEServer.t) :=
  let url := Client.baseURL c +:+ "/iceservers" in
  resp <-! one_shot Do "GET" url;
  if negb (bool_decide (http.StatusCode resp = http.StatusOK))
  then Err (status_error resp)
  else
    match decode (http.Body resp) with
    | Err err => Err (Errorf_wrap "failed to decode response" err)
    | Ok result => Ok result
    end.

(** ** client_test.go: the helpers of the tests *)

(** The slice [s[lo:hi]], for [lo <= hi <= len(s)]. *)
Definition slice (s : string) (lo hi : nat) : string :=
  String.substring lo (hi - lo) s.

(** [containsSubstring]: the loop runs for [i] from 0 to
    [len(s) - len(substr)], a difference of Go [int]s that may be negative,
    and returns at the first position where the slice is [substr]. *)
Definition containsSubstring (s substr : string) : bool :=
  existsb
    (fun i => bool_decide (slice s i (i + String.length substr) = substr))
    (seq 0 (Z.to_nat (Z.of_nat (String.length s)
                      - Z.of_nat (String.length substr) + 1))).

(** [contains] *)
Definition contains (s substr : string) : bool :=
  bool_decide (String.length substr <= String.length s)
  && (bool_decide (s = substr)
      || bool_decide (String.length substr = 0)
      || (bool_decide (String.length substr < String.length s)
          && bool_decide (slice s (String.length s - String.length substr)
                            (String.length s) = substr))
      || (bool_decide (String.length substr < String.length s)
          && bool_decide (slice s 0 (String.length substr) = substr))
      || containsSubstring s substr).

(** ** Sample data for the worked examples *)

(** A stand-in for [json.Unmarshal]: a frame whose text starts with [!] is
    malformed; any other text decodes to the event of that name. *)
Definition demo_Unmarshal (data : string) : result Event.t :=
  if gostrings.HasPrefix data "!"
  then Err "invalid character '!' looking for beginning of value"
  else Ok (Event.mk data "" 0 "" "" "" false "" "" 0 0 0 "" 0 "" "" "" 0 "").

(** A connection just opened on the call path. *)
Definition demo_conn : Connection :=
  newConnection "ws://localhost:8080/call?dump=false&id=s1".

Definition demo_text (now : Z) (data : string) : incoming :=
  Incoming now (websocket.Message websocket.TextMessage data).

(** A connection with a caller's handler, whose transport then fails. *)
Definition demo_listening : Connection := OnEvent (Some (Callback 0)) demo_conn.

Definition demo_broken : Connection :=
  (readLoop demo_Unmarshal [Incoming 1000 (websocket.ReadError "EOF")]
     demo_listening).2.

(** An HTTP client for the worked examples: the call [gone] is unknown to
    the server, everything else is answered with status 200. *)
Definition demo_Do (req : http.Request) : result http.Response :=
  if bool_decide (neturl.Path (http.URL req) = "/call/kill/gone")
  then Ok (http.mkResponse 404 "")
  else Ok (http.mkResponse 200 "{}").

(** ** Vocabulary of the statements *)

(** The fields of the Go struct proper, apart from the active handler. *)
Definition same_control (c c' : Connection) : Prop :=
  conn c' = conn c /\ ctx_done c' = ctx_done c /\ closed c' = closed c
  /\ done c' = done c.

(** The caller-supplied handler a handler ends up calling, if any: the
    innermost handler of a chain of [WaitForEvent] closures. *)
Fixpoint callback_of (h : EventHandler) : option nat :=
  match h with
  | Callback id => Some id
  | Waiting _ _ (Some h') => callback_of h'
  | Waiting _ _ None => None
  end.

(** The calls of caller-supplied handlers that one call of [h] on [event]
    makes. *)
Definition callbacks (h : option EventHandler) (event : Event.t)
  : list (nat * Event.t) :=
  match h ≫= callback_of with
  | Some id => [(id, event)]
  | None => []
  end.

(** Whether a handler sends on channel [ch]. *)
Fixpoint uses_chan (ch : nat) (h : EventHandler) : bool :=
  match h with
  | Callback _ => false
  | Waiting _ eventChan originalHandler =>
      bool_decide (eventChan = ch)
      || match originalHandler with
         | Some h' => uses_chan ch h'
         | None => false
         end
  end.

(** [c1] is [c] with a [WaitForEvent] closure wrapped around its handler:
    same transport, flags and call log. *)
Definition wrapped (c1 c : Connection) : Prop :=
  same_control c c1 /\ calls c1 = calls c
  /\ exists eventType eventChan,
       eventHandler c1 = Some (Waiting eventType eventChan (eventHandler c)).

(** An escaped text has none of the separators of a query string. *)
Definition plain (s : string) : Prop :=
  gostrings.Contains s "&"%char = false
  /\ gostrings.Contains s "="%char = false
  /\ gostrings.Contains s ";"%char = false.

(** The [key=value] pieces that encode a list of entries. *)
Definition encoded_pieces (l : list (string * list string)) : list string :=
  flat_map
    (fun kvs => (fun v => neturl.QueryEscape kvs.1 +:+ "=" +:+ neturl.QueryEscape v) <$> kvs.2)
    l.

(** The path each public connect function passes to [connectWebSocket]. *)
Definition endpoint (path : connect_path) : string :=
  match path with
  | PathCall => "/call"
  | PathWebRTC => "/call/webrtc"
  | PathSIP => "/call/sip"
  end.

(** Every closure in [h] that sends on channel [ch] was made by a
    [WaitForEvent] for the discriminator [eventType]. *)
Fixpoint typed_for (ch : nat) (eventType : string) (h : EventHandler) : bool :=
  match h with
  | Callback _ => true
  | Waiting eventType' eventChan originalHandler =>
      (if decide (eventChan = ch) then bool_decide (eventType' = eventType) else true)
      && match originalHandler with
         | Some h' => typed_for ch eventType h'
         | None => true
         end
  end.

(** An action of another goroutine that installs no handler breaking
    [typed_for]. *)
Definition respects (ch : nat) (eventType : string) (a : action) : bool :=
  match a with
  | ASetHandler (Some h) => typed_for ch eventType h
  | _ => true
  end.

(** Channel [ch] is allocated, holds only events of discriminator
    [eventType], and is sent on only by closures made for [eventType]. *)
Definition chan_typed (ch : nat) (eventType : string) (c : Connection) : Prop :=
  ch < length (chans c)
  /\ (forall e, chans c !! ch = Some (Some e) -> Event.Event e = eventType)
  /\ (forall h, eventHandler c = Some h -> typed_for ch eventType h = true).

(** The shape of a connection that only [Close] shuts down: the closed
    flag and the teardown of the socket go together, a closed connection has
    its context cancelled, and what was written is text frames, followed on
    a closed connection by at most the one close frame. *)
Definition orderly (c : Connection) : Prop :=
  closed c = websocket.torn_down (conn c)
  /\ implb (closed c) (ctx_done c) = true
  /\ exists wires,
       websocket.written (conn c) = websocket.Text <$> wires
       \/ (closed c = true
           /\ websocket.written (conn c)
              = ((websocket.Text <$> wires)
                 ++ [websocket.CloseFrame websocket.CloseNormalClosure ""])%list).

(** The document a send puts on the wire, if it gets that far: the write
    must be accepted and the envelope must marshal. *)
Definition wire_sent (s : error * api_call) : option json.value :=
  match s.1, marshal (envelope s.2) with
  | None, Ok wire => Some wire
  | _, _ => None
  end.

(** Whether [ReadMessage] fails somewhere in [inputs]. *)
Definition has_read_error (inputs : list incoming) : bool :=
  existsb (fun i => match read i with
                    | websocket.ReadError _ => true
                    | websocket.Message _ _ => false
                    end) inputs.

(** The events that the frames [inputs] stand for, up to the first read
    error: the decoded event of a text frame, a synthetic error for a text
    frame that does not decode, nothing for a frame of another type, and
    for the read error itself a synthetic error unless the connection is
    closed. *)
Fixpoint loop_events (U : string -> result Event.t) (is_closed : bool)
    (inputs : list incoming) : list Event.t :=
  match inputs with
  | [] => []
  | i :: inputs' =>
      match read i with
      | websocket.ReadError err =>
          if is_closed then []
          else [errorEvent (now i) ("WebSocket read error: " +:+ err)]
      | websocket.Message messageType data =>
          (if decide (messageType = websocket.TextMessage)
           then match U data with
                | Ok event => [event]
                | Err err => [errorEvent (now i) ("failed to parse event: " +:+ err)]
                end
           else [])
          ++ loop_events U is_closed inputs'
      end
  end.

(** * Properties *)

(** ** Frame lemmas: what handlers and the send path leave alone *)

(** Induction on a handler through the handler it wraps. *)
Lemma EventHandler_nested_ind (P : EventHandler -> Prop) :
  (forall id, P (Callback id)) ->
  (forall eventType eventChan, P (Waiting eventType eventChan None)) ->
  (forall eventType eventChan h, P h -> P (Waiting eventType eventChan (Some h))) ->
  forall h, P h.
Proof.
  intros Hcb Hnone Hsome.
  fix IH 1. intros [id | eventType eventChan [h |]].
  - apply Hcb.
  - apply Hsome, IH.
  - apply Hnone.
Qed.

Lemma same_control_refl c : same_control c c.
Proof. repeat split. Qed.

Lemma same_control_trans c1 c2 c3 :
  same_control c1 c2 -> same_control c2 c3 -> same_control c1 c3.
Proof.
  intros (? & ? & ? & ?) (? & ? & ? & ?). repeat split; congruence.
Qed.

Lemma chan_try_send_control ch e c : same_control c (chan_try_send ch e c).
Proof.
  unfold chan_try_send. destruct (chans c !! ch) as [[?|]|]; repeat split.
Qed.

Lemma chan_try_send_handler ch e c :
  eventHandler (chan_try_send ch e c) = eventHandler c.
Proof.
  unfold chan_try_send. destruct (chans c !! ch) as [[?|]|]; reflexivity.
Qed.

Lemma invoke_control h e : forall c, same_control c (invoke h e c).
Proof.
  induction h as [id | ty ch | ty ch h IH] using EventHandler_nested_ind;
    intros c; simpl.
  - repeat split.
  - destruct (decide _); [apply chan_try_send_control | apply same_control_refl].
  - destruct (decide _).
    + eapply same_control_trans; [apply chan_try_send_control | apply IH].
    + apply IH.
Qed.

Lemma invoke_handler h e : forall c, eventHandler (invoke h e c) = eventHandler c.
Proof.
  induction h as [id | ty ch | ty ch h IH] using EventHandler_nested_ind;
    intros c; simpl.
  - reflexivity.
  - destruct (decide _); [apply chan_try_send_handler | reflexivity].
  - rewrite IH. destruct (decide _); [apply chan_try_send_handler | reflexivity].
Qed.

Lemma dispatch_control e c : same_control c (dispatch e c).
Proof.
  unfold dispatch. destruct (eventHandler c);
    [apply invoke_control | apply same_control_refl].
Qed.

Lemma handleError_dispatch now err c :
  handleError now err c = dispatch (errorEvent now err) c.
Proof. reflexivity. Qed.

Lemma handleError_control now err c : same_control c (handleError now err c).
Proof. apply dispatch_control. Qed.

Lemma handleMessage_control U now data c :
  same_control c (handleMessage U now data c).
Proof.
  unfold handleMessage. destruct (U data);
    [apply dispatch_control | apply handleError_control].
Qed.

Lemma readLoop_received_control U i c :
  same_control c (readLoop_received U i c).2.
Proof.
  unfold readLoop_received. destruct (read i) as [mt data | err]; simpl.
  - destruct (decide _); [apply handleMessage_control | apply same_control_refl].
  - destruct (negb _); [apply handleError_control | apply same_control_refl].
Qed.

(** The closed flag is never cleared. *)
Lemma sendCommand_closed w command c :
  closed (sendCommand w command c).2 = closed c.
Proof.
  unfold sendCommand, isClosed, sendCommand_locked.
  destruct (closed c) eqn:Hc; simpl; [exact Hc|].
  destruct (marshal command); simpl; [|exact Hc].
  destruct w; simpl; exact Hc.
Qed.

Lemma perform_sendCommand w call : perform w call = sendCommand w (envelope call).
Proof. destruct call; reflexivity. Qed.

Lemma Close_closed w cl c : closed (Close w cl c).2 = true.
Proof.
  unfold Close. destruct (closed c) eqn:Hc; simpl; [exact Hc|].
  destruct w; reflexivity.
Qed.

Lemma step_closed U a c : closed c = true -> closed (step U a c) = true.
Proof.
  intros Hc. destruct a; simpl.
  - rewrite perform_sendCommand, sendCommand_closed. exact Hc.
  - apply Close_closed.
  - exact Hc.
  - exact Hc.
  - destruct (done c); [exact Hc|].
    pose proof (readLoop_received_control U i c) as (_ & _ & Hcl & _).
    destruct (readLoop_received U i c) as [[] c']; simpl in *; congruence.
  - destruct (done c); [exact Hc|]. destruct (ctx_done c); exact Hc.
  - exact Hc.
Qed.

Lemma run_closed U acts : forall c, closed c = true -> closed (run U acts c) = true.
Proof.
  induction acts as [|a acts IH]; intros c Hc; simpl; [exact Hc|].
  apply IH, step_closed, Hc.
Qed.

Lemma sendCommand_when_closed w command c :
  closed c = true -> sendCommand w command c = (Some "connection is closed", c).
Proof. intros Hc. unfold sendCommand, isClosed. rewrite Hc. reflexivity. Qed.

Lemma Close_when_closed w cl c : closed c = true -> Close w cl c = (None, c).
Proof. intros Hc. unfold Close. rewrite Hc. reflexivity. Qed.

(** ** Send and Close *)

(** C2. Once [Close] has been called, whatever its outcome and whatever the
    connection went through before, every later call on the send path,
    after any further activity on the connection, fails with the
    closed-connection error and leaves the connection, and so the frames
    written to the transport, as they were.  The same holds for a send that
    had passed its first test of the flag before the [Close]: the test
    repeated under the lock stops it. *)
Theorem send_after_Close_fails U c w cl later w' call data :
  perform w' call (run U later (Close w cl c).2)
  = (Some "connection is closed", run U later (Close w cl c).2)
  /\ sendCommand_locked w' data (run U later (Close w cl c).2)
     = (Some "connection is closed", run U later (Close w cl c).2)
  /\ websocket.written (conn (perform w' call (run U later (Close w cl c).2)).2)
     = websocket.written (conn (run U later (Close w cl c).2)).
Proof.
  assert (closed (run U later (Close w cl c).2) = true) as Hc
    by apply run_closed, Close_closed.
  assert (perform w' call (run U later (Close w cl c).2)
          = (Some "connection is closed", run U later (Close w cl c).2)) as Hp.
  { rewrite perform_sendCommand. apply sendCommand_when_closed, Hc. }
  split; [exact Hp|]. split.
  - unfold sendCommand_locked. rewrite Hc. reflexivity.
  - rewrite Hp. reflexivity.
Qed.

(** C4. The first [Close] on a connection that is not closed performs the
    shutdown: the flag is set, the context cancelled, the close frame
    written when the transport accepts it, the socket torn down.  Every
    later [Close], after any activity in between, returns nil and changes
    nothing. *)
Theorem Close_idempotent U c w cl later w2 cl2 :
  closed c = false ->
  (closed (Close w cl c).2 = true
   /\ ctx_done (Close w cl c).2 = true
   /\ websocket.torn_down (conn (Close w cl c).2) = true
   /\ websocket.written (conn (Close w cl c).2)
      = (websocket.written (conn c)
         ++ match w with
            | None => [websocket.CloseFrame websocket.CloseNormalClosure ""]
            | Some _ => []
            end)%list)
  /\ Close w2 cl2 (run U later (Close w cl c).2)
     = (None, run U later (Close w cl c).2).
Proof.
  intros Hc. split.
  - unfold Close. rewrite Hc. destruct w; simpl; repeat split.
    symmetry. apply app_nil_r.
  - apply Close_when_closed, run_closed, Close_closed.
Qed.

Lemma Close_idempotent_witness :
  Close None None
    (run demo_Unmarshal [ASend None CallInterrupt; AClose None None]
       (Close None None demo_conn).2)
  = (None,
     run demo_Unmarshal [ASend None CallInterrupt; AClose None None]
       (Close None None demo_conn).2).
Proof.
  apply (Close_idempotent demo_Unmarshal demo_conn None None
           [ASend None CallInterrupt; AClose None None] None None).
  reflexivity.
Defined.

(** C10. When the first [Close] cannot write the close frame it returns the
    write error, and the connection is closed all the same: every later
    send fails as closed and every later [Close] returns nil at once. *)
Theorem failed_Close_still_closes U c err cl later :
  closed c = false ->
  (Close (Some err) cl c).1 = Some err
  /\ closed (Close (Some err) cl c).2 = true
  /\ (forall w call,
        perform w call (run U later (Close (Some err) cl c).2)
        = (Some "connection is closed", run U later (Close (Some err) cl c).2))
  /\ (forall w2 cl2,
        Close w2 cl2 (run U later (Close (Some err) cl c).2)
        = (None, run U later (Close (Some err) cl c).2)).
Proof.
  intros Hc. repeat split.
  - unfold Close. rewrite Hc. reflexivity.
  - apply Close_closed.
  - intros w call. rewrite perform_sendCommand.
    apply sendCommand_when_closed, run_closed, Close_closed.
  - intros w2 cl2. apply Close_when_closed, run_closed, Close_closed.
Qed.

Lemma failed_Close_still_closes_witness :
  (Close (Some "write: broken pipe") None demo_conn).1 = Some "write: broken pipe"
  /\ perform None (CallHangup "bye" "caller")
       (Close (Some "write: broken pipe") None demo_conn).2
     = (Some "connection is closed",
        (Close (Some "write: broken pipe") None demo_conn).2).
Proof.
  destruct (failed_Close_still_closes demo_Unmarshal demo_conn
              "write: broken pipe" None [] eq_refl) as (H1 & _ & H3 & _).
  split; [exact H1 | exact (H3 None (CallHangup "bye" "caller"))].
Defined.

(** ** The receive loop *)

Lemma readLoop_read_error U c i err rest :
  ctx_done c = false -> closed c = false ->
  read i = websocket.ReadError err ->
  readLoop U (i :: rest) c
  = (Exited,
     set_done true
       (dispatch (errorEvent (now i) ("WebSocket read error: " +:+ err)) c)).
Proof.
  intros Hctx Hcl Hread. simpl. rewrite Hctx.
  unfold readLoop_received, isClosed. rewrite Hread, Hcl. reflexivity.
Qed.

(** C3, as the code has it.  On a read error that no [Close] induced, the
    loop hands exactly one synthetic [error] event, with the error text and
    the clock reading, to the active handler if there is one, then returns
    and closes [done].  It does not mark the connection closed and does not
    cancel its context: both stay as they were. *)
Theorem fatal_read_error_ends_loop U c i err rest :
  ctx_done c = false -> closed c = false ->
  read i = websocket.ReadError err ->
  (readLoop U (i :: rest) c).1 = Exited
  /\ (readLoop U (i :: rest) c).2
     = set_done true
         (dispatch (errorEvent (now i) ("WebSocket read error: " +:+ err)) c)
  /\ done (readLoop U (i :: rest) c).2 = true
  /\ (forall id, eventHandler c = Some (Callback id) ->
        calls (readLoop U (i :: rest) c).2
        = (calls c
           ++ [(id, Event.mk "error" "" (now i) "" "" "" false "" "" 0 0 0 ""
                      0 "" "" ("WebSocket read error: " +:+ err) 0 "")])%list)
  /\ (eventHandler c = None -> calls (readLoop U (i :: rest) c).2 = calls c)
  /\ closed (readLoop U (i :: rest) c).2 = false
  /\ ctx_done (readLoop U (i :: rest) c).2 = false.
Proof.
  intros Hctx Hcl Hread.
  rewrite (readLoop_read_error U c i err rest Hctx Hcl Hread). simpl.
  pose proof (dispatch_control
                (errorEvent (now i) ("WebSocket read error: " +:+ err)) c)
    as (_ & Hd & Hc & _).
  repeat split; try congruence.
  - intros id Hh. unfold dispatch. rewrite Hh. reflexivity.
  - intros Hh. unfold dispatch. rewrite Hh. reflexivity.
Qed.

Lemma fatal_read_error_ends_loop_witness :
  (readLoop demo_Unmarshal [Incoming 1000 (websocket.ReadError "EOF")]
     demo_listening).1 = Exited
  /\ done demo_broken = true.
Proof.
  destruct (fatal_read_error_ends_loop demo_Unmarshal demo_listening
              (Incoming 1000 (websocket.ReadError "EOF")) "EOF" []
              eq_refl eq_refl eq_refl) as (H1 & _ & H3 & _).
  split; [exact H1 | exact H3].
Defined.

(** C3 as stated fails: after a fatal read error on a connection nobody
    closed, the loop has exited and delivered its one error event, yet the
    connection is not in the closed state, its context is not cancelled,
    and a send is still let through to the transport. *)
Lemma fatal_read_error_leaves_connection_open :
  done demo_broken = true
  /\ calls demo_broken
     = [(0%nat, errorEvent 1000 "WebSocket read error: EOF")]
  /\ closed demo_broken = false
  /\ ctx_done demo_broken = false
  /\ (perform None CallInterrupt demo_broken).1 = None.
Proof. repeat split. Qed.

(** C9. A text frame that fails to decode is turned into one synthetic
    [error] event, handed to the active handler like any event; the loop
    then goes on with the next frame, and neither the closed flag, the
    context, the [done] channel nor the transport has changed. *)
Theorem malformed_frame_is_recoverable U c i data err rest :
  ctx_done c = false ->
  read i = websocket.Message websocket.TextMessage data ->
  U data = Err err ->
  readLoop U (i :: rest) c
  = readLoop U rest
      (dispatch (errorEvent (now i) ("failed to parse event: " +:+ err)) c)
  /\ (forall id, eventHandler c = Some (Callback id) ->
        calls (dispatch (errorEvent (now i) ("failed to parse event: " +:+ err)) c)
        = (calls c
           ++ [(id, Event.mk "error" "" (now i) "" "" "" false "" "" 0 0 0 ""
                      0 "" "" ("failed to parse event: " +:+ err) 0 "")])%list)
  /\ closed (dispatch (errorEvent (now i) ("failed to parse event: " +:+ err)) c)
     = closed c
  /\ ctx_done (dispatch (errorEvent (now i) ("failed to parse event: " +:+ err)) c)
     = false
  /\ done (dispatch (errorEvent (now i) ("failed to parse event: " +:+ err)) c)
     = done c
  /\ conn (dispatch (errorEvent (now i) ("failed to parse event: " +:+ err)) c)
     = conn c.
Proof.
  intros Hctx Hread Hdec.
  pose proof (dispatch_control
                (errorEvent (now i) ("failed to parse event: " +:+ err)) c)
    as (Hk & Hd & Hc & Hdone).
  repeat split; try congruence.
  - simpl. rewrite Hctx. unfold readLoop_received. rewrite Hread.
    destruct (decide _) as [_|Hne]; [|contradiction].
    unfold handleMessage. rewrite Hdec. reflexivity.
  - intros id Hh. unfold dispatch. rewrite Hh. reflexivity.
Qed.

Lemma malformed_frame_is_recoverable_witness :
  readLoop demo_Unmarshal [demo_text 5 "!oops"; demo_text 6 "answer"]
    demo_listening
  = readLoop demo_Unmarshal [demo_text 6 "answer"]
      (dispatch
         (errorEvent 5
            ("failed to parse event: "
             +:+ "invalid character '!' looking for beginning of value"))
         demo_listening).
Proof.
  apply (malformed_frame_is_recoverable demo_Unmarshal demo_listening
           (demo_text 5 "!oops") "!oops"
           "invalid character '!' looking for beginning of value"
           [demo_text 6 "answer"]); reflexivity.
Defined.

(** ** Handlers and Wait-For-Event *)

Lemma chan_try_send_calls ch e c : calls (chan_try_send ch e c) = calls c.
Proof.
  unfold chan_try_send. destruct (chans c !! ch) as [[?|]|]; reflexivity.
Qed.

Lemma callbacks_Waiting eventType eventChan o e :
  callbacks (Some (Waiting eventType eventChan o)) e = callbacks o e.
Proof. destruct o; reflexivity. Qed.

Lemma invoke_calls h e :
  forall c, calls (invoke h e c) = (calls c ++ callbacks (Some h) e)%list.
Proof.
  induction h as [id | ty ch | ty ch h IH] using EventHandler_nested_ind;
    intros c.
  - reflexivity.
  - simpl. unfold callbacks; simpl. rewrite app_nil_r.
    destruct (decide _); [apply chan_try_send_calls | reflexivity].
  - rewrite callbacks_Waiting. simpl. rewrite IH.
    destruct (decide _); [rewrite chan_try_send_calls|]; reflexivity.
Qed.

Lemma dispatch_calls e c :
  calls (dispatch e c) = (calls c ++ callbacks (eventHandler c) e)%list.
Proof.
  unfold dispatch. destruct (eventHandler c) as [h|].
  - apply invoke_calls.
  - symmetry. apply app_nil_r.
Qed.

Lemma dispatch_handler e c : eventHandler (dispatch e c) = eventHandler c.
Proof.
  unfold dispatch. destruct (eventHandler c) as [h|] eqn:Hh; [|exact Hh].
  rewrite invoke_handler. exact Hh.
Qed.

Lemma wrapped_install eventType c : wrapped (WaitForEvent_install eventType c) c.
Proof.
  repeat split. exists eventType, (length (chans c)). reflexivity.
Qed.

Lemma wrapped_dispatch e c1 c :
  wrapped c1 c -> wrapped (dispatch e c1) (dispatch e c).
Proof.
  intros ((Hk & Hd & Hc & Hdone) & Hcalls & ty & ch & Hh).
  pose proof (dispatch_control e c1) as (Hk1 & Hd1 & Hc1 & Hdone1).
  pose proof (dispatch_control e c) as (Hk2 & Hd2 & Hc2 & Hdone2).
  split; [repeat split; congruence|]. split.
  - rewrite !dispatch_calls, Hh, callbacks_Waiting, Hcalls. reflexivity.
  - exists ty, ch. rewrite !dispatch_handler. exact Hh.
Qed.

Lemma wrapped_received U i c1 c :
  wrapped c1 c ->
  (readLoop_received U i c1).1 = (readLoop_received U i c).1
  /\ wrapped (readLoop_received U i c1).2 (readLoop_received U i c).2.
Proof.
  intros Hw. unfold readLoop_received, isClosed, handleMessage.
  assert (closed c1 = closed c) as -> by apply Hw.
  destruct (read i) as [mt data | err]; simpl; (split; [reflexivity|]).
  - destruct (decide _); [|exact Hw].
    destruct (U data); apply wrapped_dispatch, Hw.
  - destruct (negb (closed c)); [apply wrapped_dispatch, Hw | exact Hw].
Qed.

Lemma wrapped_set_done c1 c : wrapped c1 c -> wrapped (set_done true c1) (set_done true c).
Proof.
  intros ((Hk & Hd & Hc & Hdone) & Hcalls & ty & ch & Hh).
  repeat split; simpl; try assumption. exists ty, ch. exact Hh.
Qed.

Lemma wrapped_run_received U frames :
  forall c1 c, wrapped c1 c ->
    wrapped (run U (AReceived <$> frames) c1) (run U (AReceived <$> frames) c).
Proof.
  induction frames as [|i frames IH]; intros c1 c Hw; [exact Hw|].
  cbn [fmap list_fmap run foldl]. apply IH. simpl.
  assert (done c1 = done c) as -> by apply Hw.
  destruct (done c); [exact Hw|].
  destruct (wrapped_received U i c1 c Hw) as [Hb Hw'].
  destruct (readLoop_received U i c1) as [b1 c1'],
           (readLoop_received U i c) as [b c']; simpl in *. subst b1.
  destruct b; [exact Hw' | apply wrapped_set_done, Hw'].
Qed.

Lemma chan_try_send_length ch e c :
  length (chans (chan_try_send ch e c)) = length (chans c).
Proof.
  unfold chan_try_send. destruct (chans c !! ch) as [[?|]|]; simpl;
    rewrite ?length_insert; reflexivity.
Qed.

(** A full slot is never overwritten. *)
Lemma chan_try_send_keeps_full ch' e c ch e0 :
  chans c !! ch = Some (Some e0) ->
  chans (chan_try_send ch' e c) !! ch = Some (Some e0).
Proof.
  intros Hfull. unfold chan_try_send.
  destruct (chans c !! ch') as [[?|]|] eqn:Hslot; simpl; try exact Hfull.
  destruct (decide (ch' = ch)) as [->|Hne]; [congruence|].
  rewrite list_lookup_insert_ne by exact Hne. exact Hfull.
Qed.

Lemma invoke_keeps_full h e ch e0 :
  forall c, chans c !! ch = Some (Some e0) ->
    chans (invoke h e c) !! ch = Some (Some e0).
Proof.
  induction h as [id | ty ch' | ty ch' h IH] using EventHandler_nested_ind;
    intros c Hfull; simpl.
  - exact Hfull.
  - destruct (decide _); [apply chan_try_send_keeps_full|]; exact Hfull.
  - apply IH. destruct (decide _); [apply chan_try_send_keeps_full|]; exact Hfull.
Qed.

(** A handler leaves alone the channels it does not send on. *)
Lemma invoke_unused h e ch :
  forall c, uses_chan ch h = false ->
    chans (invoke h e c) !! ch = chans c !! ch.
Proof.
  induction h as [id | ty ch' | ty ch' h IH] using EventHandler_nested_ind;
    intros c Hu; simpl in *.
  - reflexivity.
  - rewrite orb_false_r in Hu. apply bool_decide_eq_false in Hu.
    destruct (decide _); [|reflexivity].
    unfold chan_try_send. destruct (chans c !! ch') as [[?|]|]; simpl; try reflexivity.
    apply list_lookup_insert_ne. exact Hu.
  - apply orb_false_iff in Hu as [Hu1 Hu2]. apply bool_decide_eq_false in Hu1.
    rewrite IH by exact Hu2.
    destruct (decide _); [|reflexivity].
    unfold chan_try_send. destruct (chans c !! ch') as [[?|]|]; simpl; try reflexivity.
    apply list_lookup_insert_ne. exact Hu1.
Qed.

(** C6. While a [WaitForEvent] is pending, the closure it installed hands
    every inbound event on to the handler that was active before: over any
    run of inbound frames the caller's handlers are called exactly as they
    would have been without the wait, each event reaching the previous
    handler as the same event.  On top of that the closure stores an event
    in its one-slot channel exactly when the event's discriminator is the
    requested one.  (The hypothesis says that the handler active at entry
    does not already send on the channel the wait is about to allocate.) *)
Theorem pending_wait_composes_handler U eventType c frames event :
  (forall h, eventHandler c = Some h -> uses_chan (length (chans c)) h = false) ->
  calls (run U (AReceived <$> frames) (WaitForEvent_install eventType c))
  = calls (run U (AReceived <$> frames) c)
  /\ calls (dispatch event (WaitForEvent_install eventType c))
     = (calls c ++ callbacks (eventHandler c) event)%list
  /\ chans (dispatch event (WaitForEvent_install eventType c)) !! length (chans c)
     = Some (if decide (Event.Event event = eventType) then Some event else None).
Proof.
  intros Hwf. split; [|split].
  - apply (wrapped_run_received U frames), wrapped_install.
  - rewrite dispatch_calls. simpl. apply (f_equal (app (calls c))).
    apply callbacks_Waiting.
  - unfold dispatch, WaitForEvent_install. cbn [eventHandler set_eventHandler set_chans].
    cbn [invoke].
    set (c1 := set_eventHandler _ _).
    assert (chans c1 !! length (chans c) = Some None) as Hfree.
    { subst c1. simpl. rewrite lookup_app_r by lia.
      rewrite Nat.sub_diag. reflexivity. }
    destruct (decide (Event.Event event = eventType)) as [Hm|Hm].
    + assert (chans (chan_try_send (length (chans c)) event c1) !! length (chans c)
              = Some (Some event)) as Hfull.
      { unfold chan_try_send. rewrite Hfree. simpl.
        apply list_lookup_insert_eq. subst c1. simpl.
        rewrite length_app. simpl. lia. }
      destruct (eventHandler c) as [h|]; [|exact Hfull].
      apply invoke_keeps_full, Hfull.
    + destruct (eventHandler c) as [h|] eqn:Hh; [|exact Hfree].
      rewrite invoke_unused by (apply Hwf; reflexivity). exact Hfree.
Qed.

Lemma pending_wait_composes_handler_witness :
  calls (run demo_Unmarshal
           (AReceived <$> [demo_text 1 "ringing"; demo_text 2 "answer"])
           (WaitForEvent_install "answer" demo_listening))
  = calls (run demo_Unmarshal
             (AReceived <$> [demo_text 1 "ringing"; demo_text 2 "answer"])
             demo_listening).
Proof.
  refine (proj1 (pending_wait_composes_handler demo_Unmarshal "answer"
                   demo_listening [demo_text 1 "ringing"; demo_text 2 "answer"]
                   Event.zero _)).
  intros h Hh. injection Hh as <-. reflexivity.
Defined.



(** ** The wire form of commands *)








Lemma sendCommand_open w command wire c :
  closed c = false -> marshal command = Ok wire ->
  sendCommand w command c
  = match w with
    | None =>
        (None,
         set_conn (websocket.mkConn (websocket.remote (conn c))
                     (websocket.written (conn c) ++ [websocket.Text wire])
                     (websocket.torn_down (conn c))) c)
    | Some err => (Some ("failed to send command: " +:+ err), c)
    end.
Proof.
  intros Hc Hm. unfold sendCommand, isClosed, sendCommand_locked.
  rewrite Hc, Hm. destruct w; reflexivity.
Qed.




(** ** The endpoint resolver *)

Lemma prefix_split p : forall s,
  String.prefix p s = true -> s = p +:+ gostrings.drop (String.length p) s.
Proof.
  induction p as [|a p IH]; intros s H; [reflexivity|].
  destruct s as [|b s]; simpl in H; [discriminate|].
  destruct (ascii_dec a b) as [->|]; [|discriminate].
  change (String b s = String b (p +:+ gostrings.drop (String.length p) s)).
  f_equal. apply IH, H.
Qed.

Lemma Replace1_unfold s old new :
  gostrings.Replace1 s old new
  = if String.prefix old s
    then new +:+ gostrings.drop (String.length old) s
    else match s with
         | EmptyString => ""
         | String a s' => String a (gostrings.Replace1 s' old new)
         end.
Proof. destruct s; reflexivity. Qed.

(** The translated address always starts with a WebSocket scheme. *)
Lemma translate_scheme_prefix baseURL :
  exists rest,
    translate_scheme baseURL
    = (if gostrings.HasPrefix baseURL "http://" then "ws://"
       else if gostrings.HasPrefix baseURL "https://" then "wss://"
       else if gostrings.HasPrefix baseURL "wss://" then "wss://"
       else "ws://") +:+ rest.
Proof.
  unfold translate_scheme, gostrings.HasPrefix.
  destruct (String.prefix "http://" baseURL) eqn:H1.
  { rewrite Replace1_unfold, H1. eauto. }
  destruct (String.prefix "https://" baseURL) eqn:H2.
  { rewrite Replace1_unfold, H2. eauto. }
  destruct (String.prefix "wss://" baseURL) eqn:H4.
  { destruct (String.prefix "ws://" baseURL); simpl;
      exists (gostrings.drop (String.length "wss://") baseURL);
      apply prefix_split, H4. }
  destruct (String.prefix "ws://" baseURL) eqn:H3; simpl.
  - exists (gostrings.drop (String.length "ws://") baseURL).
    apply prefix_split, H3.
  - eauto.
Qed.

Lemma set_Fragment_Scheme f u : neturl.Scheme (neturl.set_Fragment f u) = neturl.Scheme u.
Proof. reflexivity. Qed.

Lemma parse_Scheme rawURL scheme rest u :
  neturl.getScheme rawURL = Ok (scheme, rest) ->
  neturl.parse rawURL = Ok u ->
  neturl.Scheme u = gostrings.ToLower scheme \/ rawURL = "*".
Proof.
  intros Hs. unfold neturl.parse. rewrite Hs. simpl.
  intros H. repeat case_match; simplify_eq; auto.
  right. eapply bool_decide_eq_true; eassumption.
Qed.

Lemma Cut_ws r :
  gostrings.Cut ("ws://" +:+ r) "#"%char
  = let '(before, after, found) := gostrings.Cut r "#"%char in
    ("ws://" +:+ before, after, found).
Proof.
  change ("ws://" +:+ r) with (String "w" (String "s" (String ":" (String "/" (String "/" r))))).
  simpl. destruct (gostrings.Cut r "#"%char) as [[? ?] ?]. reflexivity. Qed.

Lemma Cut_wss r :
  gostrings.Cut ("wss://" +:+ r) "#"%char
  = let '(before, after, found) := gostrings.Cut r "#"%char in
    ("wss://" +:+ before, after, found).
Proof.
  change ("wss://" +:+ r)
    with (String "w" (String "s" (String "s" (String ":" (String "/" (String "/" r)))))).
  simpl. destruct (gostrings.Cut r "#"%char) as [[? ?] ?]. reflexivity. Qed.

Lemma Parse_ws r u : neturl.Parse ("ws://" +:+ r) = Ok u -> neturl.Scheme u = "ws".
Proof.
  unfold neturl.Parse. rewrite Cut_ws.
  destruct (gostrings.Cut r "#"%char) as [[before frag] found].
  destruct (neturl.parse ("ws://" +:+ before)) as [url|] eqn:Hp; simpl; [|discriminate].
  assert (neturl.Scheme url = "ws") as Hurl.
  { assert (neturl.getScheme ("ws://" +:+ before) = Ok ("ws", "//" +:+ before))
      as Hs by reflexivity.
    destruct (parse_Scheme _ _ _ url Hs Hp) as [H|H]; [exact H | discriminate]. }
  intros H. repeat case_match; simplify_eq; exact Hurl.
Qed.

Lemma Parse_wss r u : neturl.Parse ("wss://" +:+ r) = Ok u -> neturl.Scheme u = "wss".
Proof.
  unfold neturl.Parse. rewrite Cut_wss.
  destruct (gostrings.Cut r "#"%char) as [[before frag] found].
  destruct (neturl.parse ("wss://" +:+ before)) as [url|] eqn:Hp; simpl; [|discriminate].
  assert (neturl.Scheme url = "wss") as Hurl.
  { assert (neturl.getScheme ("wss://" +:+ before) = Ok ("wss", "//" +:+ before))
      as Hs by reflexivity.
    destruct (parse_Scheme _ _ _ url Hs Hp) as [H|H]; [exact H | discriminate]. }
  intros H. repeat case_match; simplify_eq; exact Hurl.
Qed.

Lemma resolve_Scheme client endpoint sessionID dump u :
  resolve client endpoint sessionID dump = Ok u ->
  neturl.Scheme u
  = (if gostrings.HasPrefix (Client.baseURL client) "http://" then "ws"
     else if gostrings.HasPrefix (Client.baseURL client) "https://" then "wss"
     else if gostrings.HasPrefix (Client.baseURL client) "wss://" then "wss"
     else "ws").
Proof.
  unfold resolve.
  destruct (translate_scheme_prefix (Client.baseURL client)) as [rest ->].
  destruct (neturl.Parse _) as [u0|] eqn:Hp; simpl; [|discriminate].
  intros H. injection H as <-. simpl.
  repeat case_match;
    first [ apply (Parse_ws (rest +:+ endpoint)), Hp
          | apply (Parse_wss (rest +:+ endpoint)), Hp ].
Qed.

(** C8. The scheme of the resolved target is [ws] for a base address that
    starts with [http://], [wss] for one that starts with [https://], and
    [ws] for one with no recognised scheme (an address already starting
    with [ws://] or [wss://] keeps its scheme); the rendered target starts
    with that scheme.  For the base address https://pbx.example.com and the
    WebRTC path the target resolves, whatever the session id and the dump
    flag, with scheme [wss]. *)
Theorem scheme_translation client endpoint sessionID dump u :
  resolve client endpoint sessionID dump = Ok u ->
  neturl.Scheme u
  = (if gostrings.HasPrefix (Client.baseURL client) "http://" then "ws"
     else if gostrings.HasPrefix (Client.baseURL client) "https://" then "wss"
     else if gostrings.HasPrefix (Client.baseURL client) "wss://" then "wss"
     else "ws")
  /\ (exists rest,
        buildWebSocketURL client endpoint sessionID dump
        = Ok (neturl.Scheme u +:+ ":" +:+ rest))
  /\ (forall sessionID' dump',
        exists u',
          resolve (NewClient "https://pbx.example.com") "/call/webrtc"
            sessionID' dump' = Ok u'
          /\ neturl.Scheme u' = "wss"
          /\ neturl.Authority u' = "pbx.example.com"
          /\ neturl.Path u' = "/call/webrtc").
Proof.
  intros Hr. pose proof (resolve_Scheme _ _ _ _ _ Hr) as Hs.
  split; [exact Hs|]. split.
  - unfold buildWebSocketURL. rewrite Hr. simpl. unfold neturl.String_.
    assert (neturl.Scheme u = "ws" \/ neturl.Scheme u = "wss") as [-> | ->]
      by (rewrite Hs; repeat case_match; auto);
      eexists; reflexivity.
  - intros sessionID' dump'. unfold resolve.
    assert (neturl.Parse
              (translate_scheme (Client.baseURL (NewClient "https://pbx.example.com"))
               +:+ "/call/webrtc")
            = Ok (neturl.mkURL "wss" "" "pbx.example.com" "/call/webrtc"
                    false false "" "")) as -> by (vm_compute; reflexivity).
    simpl. eexists. split; [reflexivity|]. repeat split.
Qed.

Lemma scheme_translation_witness :
  exists rest,
    buildWebSocketURL (NewClient "http://localhost:8080/") "/call/sip" "s1" true
    = Ok ("ws" +:+ ":" +:+ rest).
Proof.
  exact (proj1 (proj2
           (scheme_translation (NewClient "http://localhost:8080/") "/call/sip"
              "s1" true
              (neturl.mkURL "ws" "" "localhost:8080" "/call/sip" false false
                 "dump=true&id=s1" "")
              eq_refl))).
Defined.

(** *** The query string decodes to the parameters that were set *)

Lemma append_String a s t : String a s +:+ t = String a (s +:+ t).
Proof. reflexivity. Qed.

Lemma append_assoc s t u : (s +:+ t) +:+ u = s +:+ (t +:+ u).
Proof.
  induction s as [|a s IH]; [reflexivity|].
  rewrite !append_String. f_equal. exact IH.
Qed.

Lemma append_nil_r s : s +:+ "" = s.
Proof.
  induction s as [|a s IH]; [reflexivity|].
  rewrite append_String. f_equal. exact IH.
Qed.

Lemma Contains_app a b ch :
  gostrings.Contains (a +:+ b) ch
  = gostrings.Contains a ch || gostrings.Contains b ch.
Proof.
  induction a as [|x a IH]; [reflexivity|].
  rewrite append_String. simpl. rewrite IH. apply orb_assoc.
Qed.

Lemma Cut_app_sep a b sep :
  gostrings.Contains a sep = false ->
  gostrings.Cut (a +:+ String sep b) sep = (a, b, true).
Proof.
  induction a as [|x a IH]; intros H.
  - change ("" +:+ String sep b) with (String sep b). simpl.
    destruct (decide (sep = sep)); [reflexivity | contradiction].
  - rewrite append_String. simpl in *. apply orb_false_iff in H as [Hx Ha].
    apply bool_decide_eq_false in Hx.
    destruct (decide (x = sep)); [contradiction|]. rewrite (IH Ha). reflexivity.
Qed.

Lemma split_no_sep a sep :
  gostrings.Contains a sep = false -> neturl.split sep a = [a].
Proof.
  induction a as [|x a IH]; intros H; [reflexivity|].
  simpl in *. apply orb_false_iff in H as [Hx Ha].
  apply bool_decide_eq_false in Hx.
  destruct (decide (x = sep)); [contradiction|]. rewrite (IH Ha). reflexivity.
Qed.

Lemma split_app_sep a b sep :
  gostrings.Contains a sep = false ->
  neturl.split sep (a +:+ String sep b) = a :: neturl.split sep b.
Proof.
  induction a as [|x a IH]; intros H.
  - change ("" +:+ String sep b) with (String sep b). simpl.
    destruct (decide (sep = sep)); [reflexivity | contradiction].
  - rewrite append_String. simpl in *. apply orb_false_iff in H as [Hx Ha].
    apply bool_decide_eq_false in Hx.
    destruct (decide (x = sep)); [contradiction|]. rewrite (IH Ha). reflexivity.
Qed.

Lemma escape_byte_unescape c t :
  neturl.QueryUnescape (neturl.escape_byte c +:+ t)
  = (r <-! neturl.QueryUnescape t; Ok (String c r)).
Proof.
  destruct c as [[] [] [] [] [] [] [] []]; reflexivity.
Qed.

Lemma QueryUnescape_QueryEscape s :
  neturl.QueryUnescape (neturl.QueryEscape s) = Ok s.
Proof.
  induction s as [|c s IH]; [reflexivity|].
  simpl. rewrite escape_byte_unescape, IH. reflexivity.
Qed.

Lemma escape_byte_plain c : plain (neturl.escape_byte c).
Proof.
  destruct c as [[] [] [] [] [] [] [] []]; repeat split.
Qed.

Lemma QueryEscape_plain s : plain (neturl.QueryEscape s).
Proof.
  induction s as [|c s (IH1 & IH2 & IH3)]; [repeat split|].
  destruct (escape_byte_plain c) as (H1 & H2 & H3).
  simpl. unfold plain. rewrite !Contains_app, H1, H2, H3, IH1, IH2, IH3.
  repeat split.
Qed.

Lemma append_sep_nonempty a c b : a +:+ String c b <> "".
Proof. destruct a; discriminate. Qed.

Lemma parseQuery_piece_encoded m k v :
  neturl.parseQuery_piece m (neturl.QueryEscape k +:+ "=" +:+ neturl.QueryEscape v)
  = <[k := (default [] (m !! k) ++ [v])%list]> m.
Proof.
  destruct (QueryEscape_plain k) as (_ & Hk2 & Hk3).
  destruct (QueryEscape_plain v) as (_ & _ & Hv3).
  unfold neturl.parseQuery_piece.
  change ("=" +:+ neturl.QueryEscape v) with (String "="%char (neturl.QueryEscape v)).
  rewrite Contains_app, Hk3. simpl gostrings.Contains. rewrite Hv3. simpl.
  rewrite bool_decide_eq_false_2 by apply append_sep_nonempty.
  rewrite (Cut_app_sep _ _ _ Hk2), !QueryUnescape_QueryEscape. reflexivity.
Qed.

Lemma encoded_piece_plain k v :
  gostrings.Contains (neturl.QueryEscape k +:+ "=" +:+ neturl.QueryEscape v) "&"%char
  = false.
Proof.
  destruct (QueryEscape_plain k) as (Hk & _), (QueryEscape_plain v) as (Hv & _).
  change ("=" +:+ neturl.QueryEscape v) with (String "="%char (neturl.QueryEscape v)).
  rewrite Contains_app, Hk. simpl. exact Hv.
Qed.

(** Parsing the joined pieces is parsing the pieces one by one. *)
Lemma parse_join pieces : forall m,
  Forall (fun p => gostrings.Contains p "&"%char = false) pieces ->
  foldl neturl.parseQuery_piece m (neturl.split "&"%char (neturl.join "&" pieces))
  = foldl neturl.parseQuery_piece m pieces.
Proof.
  induction pieces as [|p pieces IH]; intros m Hall; [reflexivity|].
  apply Forall_cons in Hall as [Hp Hall].
  destruct pieces as [|p' pieces].
  - simpl neturl.join. rewrite split_no_sep by exact Hp. reflexivity.
  - change (neturl.join "&" (p :: p' :: pieces))
      with (p +:+ String "&"%char (neturl.join "&" (p' :: pieces))).
    rewrite split_app_sep by exact Hp. simpl foldl. apply IH, Hall.
Qed.

Lemma parse_values k vs : forall m,
  vs <> [] ->
  foldl neturl.parseQuery_piece m
    ((fun v => neturl.QueryEscape k +:+ "=" +:+ neturl.QueryEscape v) <$> vs)
  = <[k := (default [] (m !! k) ++ vs)%list]> m.
Proof.
  induction vs as [|v vs IH]; intros m Hne; [contradiction|].
  rewrite fmap_cons. simpl foldl. rewrite parseQuery_piece_encoded.
  destruct vs as [|v' vs]; [reflexivity|].
  rewrite IH by discriminate.
  rewrite lookup_insert_eq, insert_insert_eq. simpl.
  rewrite <- app_assoc. reflexivity.
Qed.

Lemma parse_entries l : forall m,
  NoDup l.*1 ->
  Forall (fun kvs => kvs.2 <> [] /\ m !! kvs.1 = None) l ->
  foldl neturl.parseQuery_piece m (encoded_pieces l) = list_to_map l ∪ m.
Proof.
  induction l as [|[k vs] l IH]; intros m Hnd Hall.
  - simpl. rewrite (left_id_L ∅ (∪)). reflexivity.
  - rewrite fmap_cons in Hnd. apply NoDup_cons in Hnd as [Hk Hnd].
    apply Forall_cons in Hall as [[Hvs Hfresh] Hall]. simpl in *.
    unfold encoded_pieces. simpl flat_map. rewrite foldl_app.
    rewrite parse_values by exact Hvs. rewrite Hfresh. simpl.
    fold (encoded_pieces l). rewrite IH; [|exact Hnd|].
    + rewrite <- insert_union_l. symmetry. apply insert_union_r.
      apply not_elem_of_list_to_map_1. exact Hk.
    + rewrite Forall_forall in Hall |- *. intros [k' vs'] Hin.
      destruct (Hall _ Hin) as [Hne Hnone]. split; [exact Hne|]. simpl in *.
      rewrite lookup_insert_ne; [exact Hnone|].
      intros ->. apply Hk.
      apply (list_elem_of_fmap_2 fst l (k', vs')), Hin.
Qed.

Lemma insert_by_key_Permutation {A} (kv : string * A) l :
  insert_by_key kv l ≡ₚ kv :: l.
Proof.
  induction l as [|kv' l IH]; [reflexivity|].
  simpl. destruct (String.leb _ _); [reflexivity|].
  rewrite IH. apply Permutation_swap.
Qed.

Lemma sort_by_key_Permutation {A} (l : list (string * A)) : sort_by_key l ≡ₚ l.
Proof.
  induction l as [|kv l IH]; [reflexivity|].
  unfold sort_by_key in *. simpl. rewrite insert_by_key_Permutation, IH.
  reflexivity.
Qed.

Lemma encoded_pieces_plain l :
  Forall (fun p => gostrings.Contains p "&"%char = false) (encoded_pieces l).
Proof.
  induction l as [|[k vs] l IH]; [constructor|].
  unfold encoded_pieces. simpl. apply Forall_app. split; [|exact IH].
  apply Forall_fmap, Forall_forall. intros v _. apply encoded_piece_plain.
Qed.

(** Decoding an encoded set of parameters gives the parameters back, as long
    as no key has an empty list of values (such a key leaves no trace in the
    encoding). *)
Lemma ParseQuery_Encode (v : neturl.Values) :
  (forall k vs, v !! k = Some vs -> vs <> []) ->
  neturl.ParseQuery (neturl.Encode v) = v.
Proof.
  intros Hne. unfold neturl.ParseQuery, neturl.Encode, neturl.Encode_pieces.
  fold (encoded_pieces (sort_by_key (map_to_list v))).
  rewrite parse_join by apply encoded_pieces_plain.
  assert (NoDup (sort_by_key (map_to_list v)).*1) as Hnd.
  { rewrite sort_by_key_Permutation. apply NoDup_fst_map_to_list. }
  rewrite parse_entries; [|exact Hnd|].
  - rewrite (right_id_L ∅ (∪)).
    rewrite (list_to_map_proper _ (map_to_list v)); [apply list_to_map_to_list|exact Hnd|].
    apply sort_by_key_Permutation.
  - apply Forall_forall. intros [k vs] Hin. split; [|apply lookup_empty].
    rewrite sort_by_key_Permutation in Hin.
    apply elem_of_map_to_list in Hin. exact (Hne k vs Hin).
Qed.

Lemma parseQuery_piece_nonempty m piece :
  (forall k vs, m !! k = Some vs -> vs <> []) ->
  forall k vs, neturl.parseQuery_piece m piece !! k = Some vs -> vs <> [].
Proof.
  intros Hm k vs. unfold neturl.parseQuery_piece.
  repeat case_match; try apply Hm.
  rewrite lookup_insert. destruct (decide _); [|apply Hm].
  intros [= <-]. intros Happ. apply app_eq_nil in Happ as [_ ?]. discriminate.
Qed.

Lemma ParseQuery_nonempty query k vs :
  neturl.ParseQuery query !! k = Some vs -> vs <> [].
Proof.
  unfold neturl.ParseQuery.
  assert (forall pieces (m : neturl.Values),
            (forall k vs, m !! k = Some vs -> vs <> []) ->
            forall k vs, foldl neturl.parseQuery_piece m pieces !! k = Some vs ->
                         vs <> []) as Hall.
  { induction pieces as [|p pieces IH]; intros m Hm; [exact Hm|].
    simpl. apply IH, parseQuery_piece_nonempty, Hm. }
  apply Hall. intros k' vs'. rewrite lookup_empty. discriminate.
Qed.

Lemma Set_nonempty key value (v : neturl.Values) :
  (forall k vs, v !! k = Some vs -> vs <> []) ->
  forall k vs, neturl.Set_ key value v !! k = Some vs -> vs <> [].
Proof.
  intros Hv k vs. unfold neturl.Set_. rewrite lookup_insert.
  destruct (decide _); [|apply Hv]. intros [= <-]. discriminate.
Qed.

(** The query string of a resolved target decodes to parameters among which
    [dump] is the flag and, for a non-empty session id, [id] is that id. *)
Lemma resolve_Query client endpoint sessionID dump u :
  resolve client endpoint sessionID dump = Ok u ->
  neturl.Query u !! "dump" = Some [Sprintf_t dump]
  /\ (sessionID <> "" -> neturl.Query u !! "id" = Some [sessionID]).
Proof.
  unfold resolve. destruct (neturl.Parse _) as [u0|]; simpl; [|discriminate].
  intros [= <-].
  set (q := neturl.Set_ "dump" _ _).
  assert (neturl.Query (neturl.set_RawQuery (neturl.Encode q) u0) = q) as ->.
  { unfold neturl.Query. simpl. apply ParseQuery_Encode. subst q.
    apply Set_nonempty. destruct (negb _); [apply Set_nonempty|];
      intros k vs; apply ParseQuery_nonempty. }
  subst q. split; [apply lookup_insert_eq|]. intros Hs.
  unfold neturl.Set_ at 1. rewrite lookup_insert_ne by discriminate.
  rewrite bool_decide_eq_false_2 by exact Hs. apply lookup_insert_eq.
Qed.

Lemma all_bytes_app p a b :
  gostrings.all_bytes p (a +:+ b) = gostrings.all_bytes p a && gostrings.all_bytes p b.
Proof.
  induction a as [|x a IH]; [reflexivity|].
  rewrite append_String. simpl. rewrite IH. apply andb_assoc.
Qed.

Lemma QueryEscape_unreserved s :
  gostrings.all_bytes neturl.query_unreserved s = true -> neturl.QueryEscape s = s.
Proof.
  induction s as [|c s IH]; [reflexivity|].
  simpl. intros H. apply andb_true_iff in H as [Hc Hs].
  unfold neturl.escape_byte. rewrite Hc, (IH Hs). reflexivity.
Qed.

Lemma hex_unreserved bytes :
  gostrings.all_bytes neturl.query_unreserved (uuid.hex bytes) = true.
Proof.
  induction bytes as [|b bytes IH]; [reflexivity|].
  simpl. rewrite IH.
  destruct b as [[] [] [] [] [] [] [] []]; reflexivity.
Qed.

Lemma uuid_String_unreserved u :
  gostrings.all_bytes neturl.query_unreserved (uuid.String_ u) = true.
Proof.
  unfold uuid.String_.
  rewrite !all_bytes_app, !hex_unreserved. reflexivity.
Qed.

Lemma uuid_String_nonempty u : uuid.String_ u <> "".
Proof. unfold uuid.String_. apply append_sep_nonempty. Qed.

Lemma Encode_dump_id (a b : string) :
  neturl.Encode (neturl.Set_ "dump" a (neturl.Set_ "id" b ∅))
  = "dump=" +:+ neturl.QueryEscape a +:+ "&id=" +:+ neturl.QueryEscape b.
Proof. reflexivity. Qed.

Lemma resolve_localhost_call sessionID dump :
  sessionID <> "" ->
  resolve (NewClient "http://localhost:8080") "/call" sessionID dump
  = Ok (neturl.mkURL "ws" "" "localhost:8080" "/call" false false
          ("dump=" +:+ Sprintf_t dump +:+ "&id=" +:+ neturl.QueryEscape sessionID)
          "").
Proof.
  intros Hs. unfold resolve.
  assert (neturl.Parse
            (translate_scheme (Client.baseURL (NewClient "http://localhost:8080"))
             +:+ "/call")
          = Ok (neturl.mkURL "ws" "" "localhost:8080" "/call" false false "" ""))
    as -> by (vm_compute; reflexivity).
  simpl result_bind. rewrite bool_decide_eq_false_2 by exact Hs.
  simpl negb. cbv iota.
  change (neturl.Query _) with (∅ : gmap string (list string)).
  unfold neturl.set_RawQuery. simpl.
  rewrite Encode_dump_id. destruct dump; reflexivity.
Qed.

Lemma connectWebSocket_target fresh dial client endpoint options c :
  connectWebSocket fresh dial client endpoint options = Ok c ->
  exists u sessionID,
    (ConnectionOptions.SessionID (default ConnectionOptions.zero options) <> "" ->
     sessionID = ConnectionOptions.SessionID (default ConnectionOptions.zero options))
    /\ (ConnectionOptions.SessionID (default ConnectionOptions.zero options) = "" ->
        sessionID = uuid.String_ fresh)
    /\ sessionID <> ""
    /\ resolve client endpoint sessionID
         (ConnectionOptions.Dump (default ConnectionOptions.zero options)) = Ok u
    /\ websocket.remote (conn c) = neturl.String_ u
    /\ neturl.Query u !! "id" = Some [sessionID]
    /\ neturl.Query u !! "dump"
       = Some [Sprintf_t (ConnectionOptions.Dump (default ConnectionOptions.zero options))].
Proof.
  unfold connectWebSocket, buildWebSocketURL.
  set (opts := default ConnectionOptions.zero options).
  set (sid := if bool_decide (ConnectionOptions.SessionID opts = "")
              then uuid.String_ fresh else ConnectionOptions.SessionID opts).
  assert (sid <> "") as Hsid.
  { subst sid. case_bool_decide; [apply uuid_String_nonempty | assumption]. }
  destruct (resolve client endpoint sid (ConnectionOptions.Dump opts))
    as [u|] eqn:Hr; simpl; [|discriminate].
  destruct dial as [err|]; simpl; [discriminate|].
  intros [= <-]. exists u, sid.
  destruct (resolve_Query _ _ _ _ _ Hr) as [Hdump Hid].
  repeat split; auto.
  - intros Hne. subst sid. rewrite bool_decide_eq_false_2 by exact Hne. reflexivity.
  - intros He. subst sid. rewrite bool_decide_eq_true_2 by exact He. reflexivity.
Qed.

Lemma connect_connectWebSocket path fresh dial client :
  connect path fresh dial client = connectWebSocket fresh dial client (endpoint path).
Proof. destruct path; reflexivity. Qed.

(** C7. A connection opened through [ConnectCall], [ConnectWebRTC] or
    [ConnectSIP] was dialled to a target whose query string decodes to an
    [id] parameter that is not empty, the caller's session id verbatim or
    else the text of the freshly drawn UUID, and to a [dump] parameter that
    is [true] or [false] as the options say.  With base address
    http://localhost:8080, the call path and no options, the target is
    ws://localhost:8080/call?dump=false&id=<uuid>: scheme [ws], path
    [/call], the generated id, which is not empty, and [dump=false]. *)
Theorem connect_target_parameters path fresh dial client options c :
  connect path fresh dial client options = Ok c ->
  (exists u sessionID,
      (ConnectionOptions.SessionID (default ConnectionOptions.zero options) <> "" ->
       sessionID = ConnectionOptions.SessionID (default ConnectionOptions.zero options))
      /\ (ConnectionOptions.SessionID (default ConnectionOptions.zero options) = "" ->
          sessionID = uuid.String_ fresh)
      /\ sessionID <> ""
      /\ resolve client (endpoint path) sessionID
           (ConnectionOptions.Dump (default ConnectionOptions.zero options)) = Ok u
      /\ websocket.remote (conn c) = neturl.String_ u
      /\ neturl.Query u !! "id" = Some [sessionID]
      /\ neturl.Query u !! "dump"
         = Some [Sprintf_t
                   (ConnectionOptions.Dump (default ConnectionOptions.zero options))])
  /\ (forall fresh',
        uuid.String_ fresh' <> ""
        /\ resolve (NewClient "http://localhost:8080") "/call"
             (uuid.String_ fresh') false
           = Ok (neturl.mkURL "ws" "" "localhost:8080" "/call" false false
                   ("dump=false&id=" +:+ uuid.String_ fresh') "")
        /\ connect PathCall fresh' None (NewClient "http://localhost:8080") None
           = Ok (newConnection
                   ("ws://localhost:8080/call?dump=false&id=" +:+ uuid.String_ fresh'))).
Proof.
  rewrite connect_connectWebSocket. intros H. split.
  - exact (connectWebSocket_target _ _ _ _ _ _ H).
  - intros fresh'.
    pose proof (resolve_localhost_call (uuid.String_ fresh') false
                  (uuid_String_nonempty fresh')) as Hr.
    rewrite (QueryEscape_unreserved _ (uuid_String_unreserved fresh')) in Hr.
    split; [apply uuid_String_nonempty|]. split; [exact Hr|].
    unfold connect, ConnectCall, connectWebSocket, buildWebSocketURL. simpl default.
    change (ConnectionOptions.SessionID ConnectionOptions.zero) with "".
    change (ConnectionOptions.Dump ConnectionOptions.zero) with false.
    rewrite bool_decide_eq_true_2 by reflexivity.
    rewrite Hr. unfold result_bind, NewConnection, neturl.String_. simpl.
    rewrite !append_assoc, !append_nil_r. reflexivity.
Qed.

Lemma connect_target_parameters_witness :
  exists u sessionID,
    sessionID <> ""
    /\ websocket.remote
         (conn (newConnection "ws://localhost:8080/call/sip?dump=true&id=sip-session"))
       = neturl.String_ u
    /\ neturl.Query u !! "id" = Some [sessionID].
Proof.
  destruct (connect_target_parameters PathSIP [] None
              (NewClient "http://localhost:8080")
              (Some (ConnectionOptions.mk "sip-session" true))
              (newConnection "ws://localhost:8080/call/sip?dump=true&id=sip-session")
              eq_refl) as [(u & sid & _ & _ & Hsid & _ & Hremote & Hid & _) _].
  exists u, sid. repeat split; assumption.
Defined.

Lemma marshal_strings l :
  result_mapM marshal (GString <$> l) = Ok (json.Str <$> l).
Proof.
  induction l as [|x l IH]; [reflexivity|].
  rewrite !fmap_cons. simpl. rewrite IH. reflexivity.
Qed.

(** Every command other than [invite], [accept] and the raw form, whose
    payloads may carry values that [encoding/json] refuses, always
    marshals. *)
Lemma closed_commands_marshal call :
  match call with
  | CallInvite _ | CallAccept _ | CallSendRawCommand _ => True
  | _ => exists wire, marshal (envelope call) = Ok wire
  end.
Proof.
  destruct call as [| | | [l|]|? ? ? [o|]| | | | | | | |? [o|]| | | |];
    try exact I; simpl; rewrite ?marshal_strings; simpl;
    repeat (case_match; simpl); eauto.
Qed.

(** ** Further properties of Wait-For-Event *)

Lemma sendCommand_frame w command c :
  chans (sendCommand w command c).2 = chans c
  /\ eventHandler (sendCommand w command c).2 = eventHandler c
  /\ calls (sendCommand w command c).2 = calls c.
Proof.
  unfold sendCommand, isClosed, sendCommand_locked, WriteMessage.
  destruct (closed c); [repeat split|].
  destruct (marshal command); [|repeat split].
  destruct w; repeat split.
Qed.

Lemma Close_frame w cl c :
  chans (Close w cl c).2 = chans c
  /\ eventHandler (Close w cl c).2 = eventHandler c
  /\ calls (Close w cl c).2 = calls c.
Proof.
  unfold Close, WriteMessage.
  destruct (closed c); [repeat split|]. destruct w; repeat split.
Qed.

Lemma uses_chan_typed_for ch eventType h :
  uses_chan ch h = false -> typed_for ch eventType h = true.
Proof.
  induction h as [id | ty ch' | ty ch' h IH] using EventHandler_nested_ind;
    simpl; intros H; [reflexivity| |];
    apply orb_false_iff in H as [H1 H2]; apply bool_decide_eq_false in H1;
    (destruct (decide _); [contradiction|]); simpl; auto.
Qed.

Lemma invoke_length h e : forall c, length (chans (invoke h e c)) = length (chans c).
Proof.
  induction h as [id | ty ch | ty ch h IH] using EventHandler_nested_ind;
    intros c; simpl; [reflexivity| |rewrite IH];
    (destruct (decide _); [apply chan_try_send_length | reflexivity]).
Qed.

Lemma chan_try_send_typed ch' e c ch eventType eventType' :
  Event.Event e = eventType' ->
  (ch' = ch -> eventType' = eventType) ->
  (forall e0, chans c !! ch = Some (Some e0) -> Event.Event e0 = eventType) ->
  forall e0, chans (chan_try_send ch' e c) !! ch = Some (Some e0) ->
             Event.Event e0 = eventType.
Proof.
  intros He Hty Hc e0. unfold chan_try_send.
  destruct (chans c !! ch') as [[?|]|] eqn:Hslot; simpl; try apply Hc.
  destruct (decide (ch' = ch)) as [->|Hne].
  - rewrite list_lookup_insert_eq by (eapply lookup_lt_Some; eassumption).
    intros [= <-]. rewrite He. auto.
  - rewrite list_lookup_insert_ne by exact Hne. apply Hc.
Qed.

Lemma invoke_typed h e ch eventType :
  forall c, typed_for ch eventType h = true ->
    (forall e0, chans c !! ch = Some (Some e0) -> Event.Event e0 = eventType) ->
    forall e0, chans (invoke h e c) !! ch = Some (Some e0) ->
               Event.Event e0 = eventType.
Proof.
  induction h as [id | ty ch' | ty ch' h IH] using EventHandler_nested_ind;
    intros c Ht Hc; simpl in *.
  - exact Hc.
  - apply andb_true_iff in Ht as [Ht _].
    destruct (decide (Event.Event e = ty)) as [He|]; [|exact Hc].
    apply (chan_try_send_typed ch' e c ch eventType ty He); [|exact Hc].
    intros Heq. destruct (decide (ch' = ch)); [|contradiction].
    apply bool_decide_eq_true in Ht. exact Ht.
  - apply andb_true_iff in Ht as [Ht Ht'].
    apply IH; [exact Ht'|].
    destruct (decide (Event.Event e = ty)) as [He|]; [|exact Hc].
    apply (chan_try_send_typed ch' e c ch eventType ty He); [|exact Hc].
    intros Heq. destruct (decide (ch' = ch)); [|contradiction].
    apply bool_decide_eq_true in Ht. exact Ht.
Qed.

Lemma dispatch_typed e ch eventType c :
  chan_typed ch eventType c -> chan_typed ch eventType (dispatch e c).
Proof.
  intros (Hlen & Hslot & Hh). unfold chan_typed.
  rewrite dispatch_handler. unfold dispatch.
  destruct (eventHandler c) as [h|] eqn:Hc; [|auto].
  rewrite invoke_length. repeat split; [exact Hlen| |exact Hh].
  apply invoke_typed; auto.
Qed.

Lemma chan_typed_same c c' ch eventType :
  chans c' = chans c -> eventHandler c' = eventHandler c ->
  chan_typed ch eventType c -> chan_typed ch eventType c'.
Proof. unfold chan_typed. intros -> ->. auto. Qed.

Lemma step_typed U a ch eventType c :
  respects ch eventType a = true ->
  chan_typed ch eventType c -> chan_typed ch eventType (step U a c).
Proof.
  intros Ha Hc. destruct a as [w call|w cl|handler|ty|i| |]; simpl.
  - rewrite perform_sendCommand.
    destruct (sendCommand_frame w (envelope call) c) as (H1 & H2 & _).
    exact (chan_typed_same _ _ _ _ H1 H2 Hc).
  - destruct (Close_frame w cl c) as (H1 & H2 & _).
    exact (chan_typed_same _ _ _ _ H1 H2 Hc).
  - destruct Hc as (Hlen & Hslot & _). repeat split; auto.
    simpl. intros h ->. exact Ha.
  - destruct Hc as (Hlen & Hslot & Hh). unfold WaitForEvent_install, chan_typed.
    simpl. rewrite length_app. simpl. repeat split; [lia| |].
    + intros e. rewrite lookup_app_l by exact Hlen. apply Hslot.
    + intros h [= <-]. simpl.
      destruct (decide (length (chans c) = ch)); [lia|]. simpl.
      destruct (eventHandler c); auto.
  - destruct (done c); [exact Hc|].
    assert (chan_typed ch eventType (readLoop_received U i c).2) as H.
    { unfold readLoop_received, handleMessage.
      destruct (read i) as [mt data|err]; simpl.
      - destruct (decide _); [|exact Hc].
        destruct (U data); apply dispatch_typed, Hc.
      - destruct (negb _); [apply dispatch_typed, Hc | exact Hc]. }
    destruct (readLoop_received U i c) as [[] c1]; simpl in *; [exact H|].
    exact (chan_typed_same c1 (set_done true c1) _ _ eq_refl eq_refl H).
  - destruct (done c); [exact Hc|]. destruct (ctx_done c); exact Hc.
  - exact Hc.
Qed.

Lemma run_typed U ch eventType acts :
  forall c, Forall (fun a => respects ch eventType a = true) acts ->
    chan_typed ch eventType c -> chan_typed ch eventType (run U acts c).
Proof.
  induction acts as [|a acts IH]; intros c Hall Hc; [exact Hc|].
  apply Forall_cons in Hall as [Ha Hall]. simpl.
  apply IH; [exact Hall|]. apply step_typed; assumption.
Qed.

(** The event a [WaitForEvent] returns carries the discriminator that was
    asked for, provided the handlers installed meanwhile are callbacks or
    closures of other waits, on their own channels. *)
Lemma WaitForEvent_match_discriminator U eventType during c event err c' :
  (forall h, eventHandler c = Some h -> uses_chan (length (chans c)) h = false) ->
  Forall (fun a => respects (length (chans c)) eventType a = true) during ->
  WaitForEvent U eventType during CaseEvent c = Some ((Some event, err), c') ->
  Event.Event event = eventType.
Proof.
  intros Hwf Hall. unfold WaitForEvent. simpl.
  destruct (chan_recv _ _) as [[e c1]|] eqn:Hrecv; [|discriminate].
  intros [= <- _ _].
  assert (chan_typed (length (chans c)) eventType
            (run U during (WaitForEvent_install eventType c))) as (_ & Hslot & _).
  { apply run_typed; [exact Hall|]. unfold WaitForEvent_install, chan_typed.
    simpl. rewrite length_app. simpl. repeat split; [lia| |].
    - intros e0. rewrite lookup_app_r by lia. rewrite Nat.sub_diag. discriminate.
    - intros h [= <-]. simpl.
      destruct (decide _); [|contradiction]. rewrite bool_decide_eq_true_2 by reflexivity.
      simpl. destruct (eventHandler c) as [h|] eqn:Hh; [|reflexivity].
      apply uses_chan_typed_for, Hwf. reflexivity. }
  apply Hslot. unfold chan_recv in Hrecv.
  destruct (chans _ !! _) as [[e0|]|]; [|discriminate..].
  injection Hrecv as <- _. reflexivity.
Qed.

(** The three ways a wait on [answer] can end. *)
Example WaitForEvent_match :
  WaitForEvent demo_Unmarshal "answer"
    [AReceived (demo_text 1 "ringing"); AReceived (demo_text 2 "answer")]
    CaseEvent demo_listening
  = Some ((Some (Event.mk "answer" "" 0 "" "" "" false "" "" 0 0 0 "" 0 "" "" "" 0 ""),
           None),
          set_calls
            [(0%nat, Event.mk "ringing" "" 0 "" "" "" false "" "" 0 0 0 "" 0 "" "" "" 0 "");
             (0%nat, Event.mk "answer" "" 0 "" "" "" false "" "" 0 0 0 "" 0 "" "" "" 0 "")]
            (set_chans [None] demo_listening)).
Proof. reflexivity. Qed.

Example WaitForEvent_timeout :
  WaitForEvent demo_Unmarshal "answer" [AReceived (demo_text 1 "ringing")]
    CaseTimeout demo_listening
  = Some ((None, Some "timeout waiting for event: answer"),
          set_calls
            [(0%nat, Event.mk "ringing" "" 0 "" "" "" false "" "" 0 0 0 "" 0 "" "" "" 0 "")]
            (set_chans [None] demo_listening)).
Proof. reflexivity. Qed.

Example WaitForEvent_closed :
  fst <$> WaitForEvent demo_Unmarshal "answer" [AClose None None] CaseCtxDone
            demo_listening
  = Some (None, Some "connection closed while waiting for event: answer")
  /\ WaitForEvent demo_Unmarshal "answer" [] CaseCtxDone demo_listening = None.
Proof. split; reflexivity. Qed.

(** ** The life cycle over arbitrary interleavings *)

Lemma sendCommand_outcome w command c :
  match (sendCommand w command c).1 with
  | Some _ => (sendCommand w command c).2 = c
  | None =>
      exists wire,
        marshal command = Ok wire
        /\ closed c = false /\ w = None
        /\ (sendCommand w command c).2
           = set_conn (websocket.mkConn (websocket.remote (conn c))
                         (websocket.written (conn c) ++ [websocket.Text wire])
                         (websocket.torn_down (conn c))) c
  end.
Proof.
  unfold sendCommand, isClosed, sendCommand_locked, WriteMessage.
  destruct (closed c) eqn:Hc; [reflexivity|].
  destruct (marshal command) as [wire|]; [|reflexivity].
  destruct w; simpl; [reflexivity|]. exists wire. repeat split.
Qed.

Lemma perform_outcome w call c :
  match (perform w call c).1 with
  | Some _ => (perform w call c).2 = c
  | None =>
      exists wire,
        marshal (envelope call) = Ok wire
        /\ closed c = false /\ w = None
        /\ (perform w call c).2
           = set_conn (websocket.mkConn (websocket.remote (conn c))
                         (websocket.written (conn c) ++ [websocket.Text wire])
                         (websocket.torn_down (conn c))) c
  end.
Proof. rewrite perform_sendCommand. apply sendCommand_outcome. Qed.

(** X1. A send either succeeds or changes nothing.  When a method of the
    dispatch surface returns an error (closed connection, marshalling
    failure, transport write failure) the connection is exactly as before:
    in particular a failed write neither closes the connection nor records
    a frame.  When it returns nil the connection was open, the transport
    accepted the write, and the only change is one text frame, the
    marshalled envelope, appended to what was written. *)
Theorem send_succeeds_or_changes_nothing w call c :
  match (perform w call c).1 with
  | Some _ => (perform w call c).2 = c
  | None =>
      exists wire,
        marshal (envelope call) = Ok wire
        /\ closed c = false /\ w = None
        /\ (perform w call c).2
           = set_conn (websocket.mkConn (websocket.remote (conn c))
                         (websocket.written (conn c) ++ [websocket.Text wire])
                         (websocket.torn_down (conn c))) c
  end.
Proof. apply perform_outcome. Qed.

Lemma same_control_monotone c c' :
  same_control c c' ->
  implb (closed c) (closed c') = true
  /\ implb (ctx_done c) (ctx_done c') = true
  /\ implb (done c) (done c') = true
  /\ implb (websocket.torn_down (conn c)) (websocket.torn_down (conn c')) = true
  /\ websocket.remote (conn c') = websocket.remote (conn c)
  /\ exists more,
       websocket.written (conn c') = (websocket.written (conn c) ++ more)%list.
Proof.
  intros (-> & -> & -> & ->).
  assert (forall b, implb b b = true) as Hrefl by (intros []; reflexivity).
  rewrite !Hrefl. repeat split. exists []. symmetry. apply app_nil_r.
Qed.

Lemma Close_open w cl c :
  closed c = false ->
  (Close w cl c).2
  = set_conn (websocket.mkConn (websocket.remote (conn c))
                (websocket.written (conn c)
                 ++ match w with
                    | None => [websocket.CloseFrame websocket.CloseNormalClosure ""]
                    | Some _ => []
                    end)
                true)
      (set_ctx_done true (set_closed true c)).
Proof.
  intros Hc. unfold Close, WriteMessage. rewrite Hc.
  destruct w; simpl; [rewrite app_nil_r|]; reflexivity.
Qed.

Lemma step_AReceived_done U i c : done c = true -> step U (AReceived i) c = c.
Proof. intros H. simpl. rewrite H. reflexivity. Qed.

Lemma step_AReceived_live U i c :
  done c = false ->
  step U (AReceived i) c
  = if (readLoop_received U i c).1 then (readLoop_received U i c).2
    else set_done true (readLoop_received U i c).2.
Proof.
  intros H. simpl. rewrite H. destruct (readLoop_received U i c). reflexivity.
Qed.

Lemma step_ALoopCheck U c :
  step U ALoopCheck c = if done c || negb (ctx_done c) then c else set_done true c.
Proof. simpl. destruct (done c), (ctx_done c); reflexivity. Qed.

Lemma step_control_monotone U a c :
  implb (closed c) (closed (step U a c)) = true
  /\ implb (ctx_done c) (ctx_done (step U a c)) = true
  /\ implb (done c) (done (step U a c)) = true
  /\ implb (websocket.torn_down (conn c)) (websocket.torn_down (conn (step U a c))) = true
  /\ websocket.remote (conn (step U a c)) = websocket.remote (conn c)
  /\ exists more,
       websocket.written (conn (step U a c)) = (websocket.written (conn c) ++ more)%list.
Proof.
  assert (forall b, implb b b = true) as Hrefl by (intros []; reflexivity).
  assert (forall b, implb b true = true) as Htrue by (intros []; reflexivity).
  destruct a as [w call|w cl|handler|ty|i| |].
  - cbn [step]. pose proof (perform_outcome w call c) as H.
    destruct (perform w call c) as [[err|] c']; cbn [fst snd] in *.
    + subst c'. apply same_control_monotone, same_control_refl.
    + destruct H as (wire & _ & _ & _ & ->). simpl. rewrite !Hrefl.
      repeat split. eauto.
  - cbn [step]. destruct (decide (closed c = true)) as [Hc|Hc%not_true_is_false].
    + rewrite (Close_when_closed w cl c Hc). cbn [snd].
      apply same_control_monotone, same_control_refl.
    + rewrite (Close_open w cl c Hc). simpl. rewrite !Htrue, !Hrefl.
      repeat split. eauto.
  - apply same_control_monotone. repeat split.
  - apply same_control_monotone. repeat split.
  - destruct (decide (done c = true)) as [Hd|Hd%not_true_is_false];
      [rewrite step_AReceived_done by exact Hd;
       apply same_control_monotone, same_control_refl|].
    rewrite step_AReceived_live by exact Hd.
    pose proof (readLoop_received_control U i c) as Hc'.
    destruct (readLoop_received U i c) as [[] c']; cbn [fst snd] in *;
      [apply same_control_monotone, Hc'|].
    destruct (same_control_monotone c c' Hc') as (H1 & H2 & _ & H4 & H5 & H6).
    simpl. rewrite Htrue. repeat split; assumption.
  - rewrite step_ALoopCheck.
    destruct (done c || negb (ctx_done c));
      [apply same_control_monotone, same_control_refl|].
    simpl. rewrite Htrue, !Hrefl. repeat split.
    exists []. symmetry. apply app_nil_r.
  - simpl. rewrite Htrue, !Hrefl. repeat split.
    exists []. symmetry. apply app_nil_r.
Qed.

(** X2. Nothing is ever undone.  Over any interleaving of sends, closes,
    handler changes, waits and turns of the receive loop, the closed flag,
    the cancellation of the context, the closing of [done] and the teardown
    of the socket, once set, stay set; the connection keeps the address it
    was dialled to; and the frames written are only ever added to at the
    end. *)
Theorem nothing_is_undone U acts c :
  implb (closed c) (closed (run U acts c)) = true
  /\ implb (ctx_done c) (ctx_done (run U acts c)) = true
  /\ implb (done c) (done (run U acts c)) = true
  /\ implb (websocket.torn_down (conn c))
       (websocket.torn_down (conn (run U acts c))) = true
  /\ websocket.remote (conn (run U acts c)) = websocket.remote (conn c)
  /\ exists more,
       websocket.written (conn (run U acts c))
       = (websocket.written (conn c) ++ more)%list.
Proof.
  revert c. induction acts as [|a acts IH]; intros c.
  - simpl. assert (forall b, implb b b = true) as Hrefl by (intros []; reflexivity).
    rewrite !Hrefl. repeat split. exists []. symmetry. apply app_nil_r.
  - simpl. destruct (step_control_monotone U a c) as (H1 & H2 & H3 & H4 & H5 & m1 & H6).
    destruct (IH (step U a c)) as (I1 & I2 & I3 & I4 & I5 & m2 & I6).
    assert (forall x y z, implb x y = true -> implb y z = true -> implb x z = true)
      as Htrans by (intros [] [] []; auto).
    repeat split; eauto; try congruence.
    exists (m1 ++ m2)%list. rewrite I6, H6, app_assoc. reflexivity.
Qed.

Lemma orderly_same_control c c' :
  same_control c c' -> orderly c -> orderly c'.
Proof. intros (Hk & Hx & Hc & _). unfold orderly. rewrite Hk, Hx, Hc. auto. Qed.

Lemma orderly_step U a c : orderly c -> orderly (step U a c).
Proof.
  intros Ho. destruct a as [w call|w cl|handler|ty|i| |].
  - cbn [step]. pose proof (perform_outcome w call c) as H.
    destruct (perform w call c) as [[err|] c']; cbn [fst snd] in *.
    + subst c'. exact Ho.
    + destruct H as (wire & _ & Hc & _ & ->).
      destruct Ho as (Ht & Hx & wires & [Hw | [Hc' _]]); [|congruence].
      unfold orderly. simpl. repeat split; auto.
      exists (wires ++ [wire])%list. left. rewrite Hw, fmap_app. reflexivity.
  - cbn [step]. destruct (decide (closed c = true)) as [Hc|Hc%not_true_is_false].
    + rewrite (Close_when_closed w cl c Hc). exact Ho.
    + rewrite (Close_open w cl c Hc).
      destruct Ho as (Ht & Hx & wires & [Hw | [Hc' _]]); [|congruence].
      unfold orderly. simpl. repeat split. exists wires. rewrite Hw.
      destruct w; [left; apply app_nil_r | right; split; reflexivity].
  - apply (orderly_same_control c); [repeat split | exact Ho].
  - apply (orderly_same_control c); [repeat split | exact Ho].
  - destruct (decide (done c = true)) as [Hd|Hd%not_true_is_false];
      [rewrite step_AReceived_done by exact Hd; exact Ho|].
    rewrite step_AReceived_live by exact Hd.
    pose proof (orderly_same_control c _ (readLoop_received_control U i c) Ho) as Hc'.
    destruct (readLoop_received U i c) as [[] c']; exact Hc'.
  - rewrite step_ALoopCheck. destruct (done c || negb (ctx_done c)); exact Ho.
  - destruct Ho as (Ht & Hx & Hw). unfold orderly. simpl.
    repeat split; [exact Ht | destruct (closed c); reflexivity | exact Hw].
Qed.

Lemma orderly_run U wsURL acts : orderly (run U acts (newConnection wsURL)).
Proof.
  assert (orderly (newConnection wsURL)) as H0.
  { repeat split. exists []. left. reflexivity. }
  revert H0. generalize (newConnection wsURL).
  induction acts as [|a acts IH]; intros c Hc; [exact Hc|].
  simpl. apply IH, orderly_step, Hc.
Qed.

(** X3. On a connection obtained from [NewConnection], after any
    interleaving of operations: the closed flag is set exactly when the
    socket has been torn down; a closed connection has its context
    cancelled; and the frames written are text frames, followed by the close
    frame, at most once and only on a closed connection.  So no frame ever
    follows the close frame, and no second close frame is ever written. *)
Theorem close_frame_is_last U wsURL acts :
  closed (run U acts (newConnection wsURL))
  = websocket.torn_down (conn (run U acts (newConnection wsURL)))
  /\ implb (closed (run U acts (newConnection wsURL)))
       (ctx_done (run U acts (newConnection wsURL))) = true
  /\ exists wires,
       websocket.written (conn (run U acts (newConnection wsURL)))
       = websocket.Text <$> wires
       \/ (closed (run U acts (newConnection wsURL)) = true
           /\ websocket.written (conn (run U acts (newConnection wsURL)))
              = ((websocket.Text <$> wires)
                 ++ [websocket.CloseFrame websocket.CloseNormalClosure ""])%list).
Proof. exact (orderly_run U wsURL acts). Qed.

Lemma send_step w call c :
  closed c = false ->
  websocket.written (conn (perform w call c).2)
  = (websocket.written (conn c)
     ++ (websocket.Text <$> option_list (wire_sent (w, call))))%list
  /\ closed (perform w call c).2 = false.
Proof.
  intros Hc. rewrite perform_sendCommand. unfold wire_sent. cbn [fst snd].
  unfold sendCommand, isClosed, sendCommand_locked, WriteMessage. rewrite Hc.
  destruct (marshal (envelope call)) as [wire|], w as [e|]; simpl;
    rewrite ?app_nil_r; auto.
Qed.

(** X4. Sends reach the transport in the order of the calls.  On an open
    connection, after any sequence of calls on the dispatch surface, some of
    which may fail to marshal or to be written, the frames added to the
    transport are the envelopes of the calls that succeeded, one text frame
    each, in call order; and the connection is still open. *)
Theorem sends_keep_call_order U sends c :
  closed c = false ->
  websocket.written (conn (run U ((fun s => ASend s.1 s.2) <$> sends) c))
  = (websocket.written (conn c)
     ++ (websocket.Text <$> omap wire_sent sends))%list
  /\ closed (run U ((fun s => ASend s.1 s.2) <$> sends) c) = false.
Proof.
  revert c. induction sends as [|[w call] sends IH]; intros c Hc.
  - simpl. rewrite app_nil_r. auto.
  - destruct (send_step w call c Hc) as [Hw Hc'].
    destruct (IH (perform w call c).2 Hc') as [IH1 IH2].
    rewrite fmap_cons. cbn [run foldl step fst snd].
    fold (run U ((fun s => ASend s.1 s.2) <$> sends) (perform w call c).2).
    split; [|exact IH2]. rewrite IH1, Hw, <- app_assoc. f_equal.
    rewrite <- fmap_app. f_equal.
    change (omap wire_sent ((w, call) :: sends))
      with (match wire_sent (w, call) with
            | Some y => y :: omap wire_sent sends
            | None => omap wire_sent sends
            end).
    destruct (wire_sent (w, call)); reflexivity.
Qed.

Lemma sends_keep_call_order_witness :
  websocket.written
    (conn (run demo_Unmarshal
             [ASend None (CallMute "t1"); ASend (Some "broken pipe") CallPause;
              ASend None CallResume] demo_conn))
  = [websocket.Text (json.Object [("command", json.Str "mute");
                                  ("trackId", json.Str "t1")]);
     websocket.Text (json.Object [("command", json.Str "resume")])].
Proof.
  exact (proj1 (sends_keep_call_order demo_Unmarshal
                  [(None, CallMute "t1"); (Some "broken pipe", CallPause);
                   (None, CallResume)] demo_conn eq_refl)).
Defined.

(** X5. On an open connection whose transport accepts the write, every
    command other than [invite], [accept] and the raw form is sent without
    error: their envelopes hold only strings, integers, booleans and string
    lists, which always marshal.  ([invite] and [accept] carry a float and
    open maps, the raw form an open map, and these can make marshalling
    fail.) *)
Theorem closed_commands_always_send call c :
  closed c = false ->
  match call with
  | CallInvite _ | CallAccept _ | CallSendRawCommand _ => True
  | _ => (perform None call c).1 = None
  end.
Proof.
  intros Hc. pose proof (closed_commands_marshal call) as Hm.
  destruct call; try exact I; destruct Hm as [wire Hm];
    rewrite perform_sendCommand, (sendCommand_open None _ wire c Hc Hm);
    reflexivity.
Qed.

Lemma closed_commands_always_send_witness :
  (perform None (CallRefer "sip:alice@example.com"
                   (Some (ReferOption.mk false 30 "" true))) demo_conn).1 = None.
Proof.
  exact (closed_commands_always_send
           (CallRefer "sip:alice@example.com" (Some (ReferOption.mk false 30 "" true)))
           demo_conn eq_refl).
Defined.

(** ** Delivery by the receive loop *)

Lemma foldl_dispatch_frame events : forall c,
  same_control c (foldl (fun c e => dispatch e c) c events)
  /\ eventHandler (foldl (fun c e => dispatch e c) c events) = eventHandler c
  /\ calls (foldl (fun c e => dispatch e c) c events)
     = (calls c ++ flat_map (callbacks (eventHandler c)) events)%list.
Proof.
  induction events as [|e events IH]; intros c.
  - simpl. rewrite app_nil_r. repeat split.
  - simpl. destruct (IH (dispatch e c)) as (H1 & H2 & H3).
    rewrite H2, H3, dispatch_handler, dispatch_calls, <- app_assoc.
    split; [|auto].
    eapply same_control_trans; [apply dispatch_control | exact H1].
Qed.

Lemma readLoop_as_dispatch U inputs : forall c,
  ctx_done c = false ->
  readLoop U inputs c
  = (if has_read_error inputs then Exited else Reading,
     (if has_read_error inputs then set_done true else id)
       (foldl (fun c e => dispatch e c) c (loop_events U (closed c) inputs))).
Proof.
  induction inputs as [|i inputs IH]; intros c Hx.
  - simpl. rewrite Hx. reflexivity.
  - cbn [readLoop]. rewrite Hx. unfold readLoop_received, handleMessage, isClosed.
    cbn [has_read_error existsb loop_events]. fold (has_read_error inputs).
    destruct (read i) as [mt data|err]; cbn [orb].
    + rewrite foldl_app.
      set (c1 := if decide (mt = websocket.TextMessage)
                 then match U data with
                      | Ok event => dispatch event c
                      | Err err =>
                          handleError (now i) (Errorf_wrap "failed to parse event" err) c
                      end
                 else c).
      assert (same_control c c1) as Hc1.
      { subst c1. destruct (decide _); [|apply same_control_refl].
        destruct (U data); [apply dispatch_control | apply handleError_control]. }
      assert (foldl (fun c e => dispatch e c) c
                (if decide (mt = websocket.TextMessage)
                 then match U data with
                      | Ok event => [event]
                      | Err err =>
                          [errorEvent (now i) ("failed to parse event: " +:+ err)]
                      end
                 else []) = c1) as ->.
      { subst c1. destruct (decide _); [|reflexivity]. destruct (U data); reflexivity. }
      rewrite IH by (destruct Hc1 as (_ & -> & _); exact Hx).
      destruct Hc1 as (_ & _ & -> & _). reflexivity.
    + destruct (closed c); reflexivity.
Qed.

(** X6. The receive loop hands over every event exactly once and in order.
    While the context is not done, the calls made to the caller's handler
    over a run of reads are, in order: the decoded event of each text frame,
    one synthetic error event for each text frame that does not decode,
    nothing for frames of another type, and one synthetic error event for the
    first read error unless the connection is closed, after which nothing
    more is read.  The loop returns exactly when a read fails; the handler,
    the flags and the transport are as before. *)
Theorem readLoop_delivers_in_order U inputs c :
  ctx_done c = false ->
  calls (readLoop U inputs c).2
  = (calls c
     ++ flat_map (callbacks (eventHandler c)) (loop_events U (closed c) inputs))%list
  /\ (readLoop U inputs c).1 = (if has_read_error inputs then Exited else Reading)
  /\ done (readLoop U inputs c).2 = (has_read_error inputs || done c)
  /\ eventHandler (readLoop U inputs c).2 = eventHandler c
  /\ closed (readLoop U inputs c).2 = closed c
  /\ ctx_done (readLoop U inputs c).2 = false
  /\ conn (readLoop U inputs c).2 = conn c.
Proof.
  intros Hx. rewrite (readLoop_as_dispatch U inputs c Hx). cbn [fst snd].
  destruct (foldl_dispatch_frame (loop_events U (closed c) inputs) c)
    as ((Hk & Hd & Hc & Hdone) & Hh & Hcalls).
  destruct (has_read_error inputs); simpl; repeat split; congruence.
Qed.

Lemma readLoop_delivers_in_order_witness :
  calls (readLoop demo_Unmarshal
           [demo_text 1 "ringing";
            Incoming 2 (websocket.Message websocket.BinaryMessage "pcm");
            demo_text 3 "!bad"; demo_text 4 "answer"] demo_listening).2
  = [(0%nat, Event.mk "ringing" "" 0 "" "" "" false "" "" 0 0 0 "" 0 "" "" "" 0 "");
     (0%nat, errorEvent 3
               "failed to parse event: invalid character '!' looking for beginning of value");
     (0%nat, Event.mk "answer" "" 0 "" "" "" false "" "" 0 0 0 "" 0 "" "" "" 0 "")].
Proof.
  exact (proj1 (readLoop_delivers_in_order demo_Unmarshal
                  [demo_text 1 "ringing";
                   Incoming 2 (websocket.Message websocket.BinaryMessage "pcm");
                   demo_text 3 "!bad"; demo_text 4 "answer"] demo_listening eq_refl)).
Defined.

Lemma closed_after_Close U before w cl later c :
  closed (run U (before ++ AClose w cl :: later) c) = true.
Proof.
  unfold run. rewrite foldl_app. cbn [foldl step].
  apply (run_closed U later), Close_closed.
Qed.

(** X7. After [Close] the receive loop ends without a word.  On a
    connection obtained from [NewConnection] on which [Close] has been
    called at some point, the loop returns at its next turn without reading
    or delivering anything; and if it was already blocked in a read, the
    read error that the teardown provokes is swallowed: no error event is
    built and the handler is not called. *)
Theorem loop_ends_silently_after_Close U wsURL before w cl later inputs t err :
  readLoop U inputs (run U (before ++ AClose w cl :: later) (newConnection wsURL))
  = (Exited,
     set_done true (run U (before ++ AClose w cl :: later) (newConnection wsURL)))
  /\ readLoop_received U (Incoming t (websocket.ReadError err))
       (run U (before ++ AClose w cl :: later) (newConnection wsURL))
     = (false, run U (before ++ AClose w cl :: later) (newConnection wsURL)).
Proof.
  pose proof (closed_after_Close U before w cl later (newConnection wsURL)) as Hc.
  destruct (orderly_run U wsURL (before ++ AClose w cl :: later))
    as (_ & Hx & _).
  rewrite Hc in Hx. simpl in Hx. split.
  - destruct inputs; simpl; rewrite Hx; reflexivity.
  - unfold readLoop_received, isClosed. simpl. rewrite Hc. reflexivity.
Qed.

(** X8. Without a handler events are dropped, not kept.  On a connection
    with no handler registered and a live context, the loop reads on through
    any frames, decodable or not, and leaves the connection exactly as it
    was; only a failed read makes it return, closing [done] and nothing
    else.  An event that arrives before [OnEvent] is called is lost. *)
Theorem events_without_handler_are_dropped U inputs c :
  eventHandler c = None ->
  ctx_done c = false ->
  readLoop U inputs c
  = if has_read_error inputs then (Exited, set_done true c) else (Reading, c).
Proof.
  intros Hh Hx. rewrite (readLoop_as_dispatch U inputs c Hx).
  assert (forall events, foldl (fun c e => dispatch e c) c events = c) as ->.
  { induction events as [|e events IH]; [reflexivity|].
    simpl. unfold dispatch at 2. rewrite Hh. exact IH. }
  destruct (has_read_error inputs); reflexivity.
Qed.

Lemma events_without_handler_are_dropped_witness :
  readLoop demo_Unmarshal [demo_text 1 "incoming"; demo_text 2 "!bad"] demo_conn
  = (Reading, demo_conn).
Proof.
  exact (events_without_handler_are_dropped demo_Unmarshal
           [demo_text 1 "incoming"; demo_text 2 "!bad"] demo_conn eq_refl eq_refl).
Defined.

(** ** What a wait returns *)

(** X9. The event returned by [WaitForEvent] has the discriminator that was
    asked for.  This holds whatever the other goroutines do meanwhile
    (sends, [Close], frames received, other waits entered), provided the
    handlers they install are callbacks or closures of other waits, and the
    handler active at entry does not already send on the channel about to
    be allocated. *)
Theorem WaitForEvent_returns_requested_event U eventType during c event err c' :
  (forall h, eventHandler c = Some h -> uses_chan (length (chans c)) h = false) ->
  Forall (fun a => respects (length (chans c)) eventType a = true) during ->
  WaitForEvent U eventType during CaseEvent c = Some ((Some event, err), c') ->
  Event.Event event = eventType /\ err = None.
Proof.
  intros Hwf Hall H. split.
  - exact (WaitForEvent_match_discriminator U eventType during c event err c'
             Hwf Hall H).
  - unfold WaitForEvent in H. cbn [WaitForEvent_select] in H.
    destruct (chan_recv _ _) as [[e c1]|]; [|discriminate].
    injection H as _ <- _. reflexivity.
Qed.

Lemma WaitForEvent_returns_requested_event_witness :
  Event.Event (Event.mk "answer" "" 0 "" "" "" false "" "" 0 0 0 "" 0 "" "" "" 0 "")
  = "answer" /\ (None : error) = None.
Proof.
  refine (WaitForEvent_returns_requested_event demo_Unmarshal "answer"
            [AReceived (demo_text 1 "ringing"); AWaitInstall "hangup";
             ASend None CallPause; AReceived (demo_text 2 "answer");
             ASetHandler (Some (Callback 7))]
            demo_listening _ None _ _ _ _).
  - intros h [= <-]. reflexivity.
  - repeat constructor.
  - reflexivity.
Defined.

Lemma dispatch_slot e c eventType ch orig slot :
  eventHandler c = Some (Waiting eventType ch orig) ->
  (forall h, orig = Some h -> uses_chan ch h = false) ->
  chans c !! ch = Some slot ->
  chans (dispatch e c) !! ch
  = Some (match slot with
          | Some e0 => Some e0
          | None => if decide (Event.Event e = eventType) then Some e else None
          end).
Proof.
  intros Hh Hwf Hslot. unfold dispatch. rewrite Hh.
  destruct slot as [e0|].
  { apply invoke_keeps_full, Hslot. }
  cbn [invoke]. destruct (decide (Event.Event e = eventType)) as [Hm|Hm].
  - assert (chans (chan_try_send ch e c) !! ch = Some (Some e)) as Hfull.
    { unfold chan_try_send. rewrite Hslot. simpl.
      apply list_lookup_insert_eq. eapply lookup_lt_Some, Hslot. }
    destruct orig as [h|]; [apply invoke_keeps_full|]; exact Hfull.
  - destruct orig as [h|]; [|exact Hslot].
    rewrite invoke_unused by (apply Hwf; reflexivity). exact Hslot.
Qed.

Lemma foldl_dispatch_slot events : forall c eventType ch orig slot,
  eventHandler c = Some (Waiting eventType ch orig) ->
  (forall h, orig = Some h -> uses_chan ch h = false) ->
  chans c !! ch = Some slot ->
  chans (foldl (fun c e => dispatch e c) c events) !! ch
  = Some (match slot with
          | Some e0 => Some e0
          | None => head (filter (fun e => Event.Event e = eventType) events)
          end).
Proof.
  induction events as [|e events IH]; intros c eventType ch orig slot Hh Hwf Hslot.
  - simpl. rewrite Hslot. destruct slot; reflexivity.
  - cbn [foldl].
    rewrite (IH (dispatch e c) eventType ch orig _
               (eq_trans (dispatch_handler e c) Hh) Hwf
               (dispatch_slot e c eventType ch orig slot Hh Hwf Hslot)).
    destruct slot as [e0|]; [reflexivity|].
    rewrite filter_cons. destruct (decide (Event.Event e = eventType)); reflexivity.
Qed.

Lemma run_cons U a acts c : run U (a :: acts) c = run U acts (step U a c).
Proof. reflexivity. Qed.

Lemma run_received_as_dispatch U inputs : forall c,
  done c = false ->
  run U (AReceived <$> inputs) c
  = (if has_read_error inputs then set_done true else id)
      (foldl (fun c e => dispatch e c) c (loop_events U (closed c) inputs)).
Proof.
  induction inputs as [|i inputs IH]; intros c Hd; [reflexivity|].
  rewrite fmap_cons, run_cons, step_AReceived_live by exact Hd.
  unfold readLoop_received, handleMessage, isClosed.
  cbn [has_read_error existsb loop_events]. fold (has_read_error inputs).
  destruct (read i) as [mt data|err]; cbn [fst snd orb].
  - rewrite foldl_app.
    set (c1 := if decide (mt = websocket.TextMessage)
               then match U data with
                    | Ok event => dispatch event c
                    | Err err =>
                        handleError (now i) (Errorf_wrap "failed to parse event" err) c
                    end
               else c).
    assert (same_control c c1) as Hc1.
    { subst c1. destruct (decide _); [|apply same_control_refl].
      destruct (U data); [apply dispatch_control | apply handleError_control]. }
    assert (foldl (fun c e => dispatch e c) c
              (if decide (mt = websocket.TextMessage)
               then match U data with
                    | Ok event => [event]
                    | Err err =>
                        [errorEvent (now i) ("failed to parse event: " +:+ err)]
                    end
               else []) = c1) as ->.
    { subst c1. destruct (decide _); [|reflexivity]. destruct (U data); reflexivity. }
    rewrite IH by (destruct Hc1 as (_ & _ & _ & ->); exact Hd).
    destruct Hc1 as (_ & _ & -> & _). reflexivity.
  - assert (forall l c0, done c0 = true -> run U (AReceived <$> l) c0 = c0) as Hstop.
    { induction l as [|j l IHl]; intros c0 H0; [reflexivity|].
      rewrite fmap_cons, run_cons, step_AReceived_done by exact H0.
      apply IHl, H0. }
    rewrite Hstop by reflexivity. destruct (closed c); reflexivity.
Qed.

(** X10. A wait returns the first match and keeps no queue.  When the only
    activity during a wait is the receive loop taking frames off the
    transport, [WaitForEvent] can return an event exactly when one of the
    events dispatched meanwhile has the requested discriminator, and the
    event it returns is the first of them; later matches are not kept.  The
    events dispatched include the synthetic [error] events of the loop, so
    a wait for [error] receives those. *)
Theorem WaitForEvent_returns_first_match U eventType inputs c :
  done c = false ->
  (forall h, eventHandler c = Some h -> uses_chan (length (chans c)) h = false) ->
  fst <$> WaitForEvent U eventType (AReceived <$> inputs) CaseEvent c
  = (fun e => (Some e, None))
      <$> head (filter (fun e => Event.Event e = eventType)
                  (loop_events U (closed c) inputs)).
Proof.
  intros Hd Hwf. unfold WaitForEvent. cbn [WaitForEvent_select].
  rewrite run_received_as_dispatch by exact Hd.
  change (closed (WaitForEvent_install eventType c)) with (closed c).
  set (events := loop_events U (closed c) inputs).
  assert (chans (foldl (fun c e => dispatch e c)
                   (WaitForEvent_install eventType c) events) !! length (chans c)
          = Some (head (filter (fun e => Event.Event e = eventType) events)))
    as Hslot.
  { apply (foldl_dispatch_slot events (WaitForEvent_install eventType c)
             eventType (length (chans c)) (eventHandler c) None).
    - reflexivity.
    - exact Hwf.
    - simpl. rewrite lookup_app_r by lia. rewrite Nat.sub_diag. reflexivity. }
  unfold chan_recv.
  assert (forall c0, chans ((if has_read_error inputs then set_done true else id) c0)
                     = chans c0) as -> by (intros; destruct (has_read_error _); reflexivity).
  rewrite Hslot. destruct (head _); reflexivity.
Qed.

Lemma WaitForEvent_returns_first_match_witness :
  fst <$> WaitForEvent demo_Unmarshal "error"
            (AReceived <$> [demo_text 1 "ringing"; demo_text 2 "!bad";
                            Incoming 3 (websocket.ReadError "EOF")])
            CaseEvent demo_listening
  = Some (Some (errorEvent 2
                  "failed to parse event: invalid character '!' looking for beginning of value"),
          None).
Proof.
  refine (WaitForEvent_returns_first_match demo_Unmarshal "error"
            [demo_text 1 "ringing"; demo_text 2 "!bad";
             Incoming 3 (websocket.ReadError "EOF")] demo_listening eq_refl _).
  intros h [= <-]. reflexivity.
Defined.

(** ** More on the wire form *)







(** ** More on the resolver *)

(** X13. What [buildWebSocketURL] does to the query of the base address.
    The query string of the target decodes to the parameters of the address
    that was parsed, with [dump] set to the flag and, for a session id that
    is not empty, [id] set to that id: earlier values of [id] and [dump] are
    replaced, every other parameter is kept, and with an empty session id no
    [id] is added.  Scheme, authority, path and fragment are those of the
    parsed address. *)
Theorem resolve_sets_id_and_dump client endpoint sessionID dump u :
  resolve client endpoint sessionID dump = Ok u ->
  exists u0,
    neturl.Parse (translate_scheme (Client.baseURL client) +:+ endpoint) = Ok u0
    /\ neturl.Query u
       = <["dump" := [Sprintf_t dump]]>
           (if decide (sessionID = "") then neturl.Query u0
            else <["id" := [sessionID]]> (neturl.Query u0))
    /\ neturl.Scheme u = neturl.Scheme u0
    /\ neturl.Authority u = neturl.Authority u0
    /\ neturl.Path u = neturl.Path u0
    /\ neturl.Fragment u = neturl.Fragment u0.
Proof.
  unfold resolve. destruct (neturl.Parse _) as [u0|]; simpl; [|discriminate].
  intros [= <-]. exists u0. split; [reflexivity|]. split; [|repeat split].
  set (q := neturl.Set_ "dump" _ _).
  assert (neturl.Query (neturl.set_RawQuery (neturl.Encode q) u0) = q) as ->.
  { unfold neturl.Query. simpl. apply ParseQuery_Encode. subst q.
    apply Set_nonempty. destruct (negb _); [apply Set_nonempty|];
      intros k vs; apply ParseQuery_nonempty. }
  subst q. unfold neturl.Set_.
  destruct (decide (sessionID = "")) as [->|Hs].
  - reflexivity.
  - rewrite bool_decide_eq_false_2 by exact Hs. reflexivity.
Qed.

Lemma resolve_sets_id_and_dump_witness :
  exists u0,
    neturl.Parse
      (translate_scheme (Client.baseURL (NewClient "https://pbx.example.com?id=old&x=1"))
       +:+ "")
    = Ok u0
    /\ neturl.Query
         (neturl.mkURL "wss" "" "pbx.example.com" "" false false
            "dump=true&id=new&x=1" "")
       = <["dump" := ["true"]]>
           (if decide ("new" = "") then neturl.Query u0
            else <["id" := ["new"]]> (neturl.Query u0)).
Proof.
  destruct (resolve_sets_id_and_dump (NewClient "https://pbx.example.com?id=old&x=1")
              "" "new" true
              (neturl.mkURL "wss" "" "pbx.example.com" "" false false
                 "dump=true&id=new&x=1" "") eq_refl) as (u0 & H1 & H2 & _).
  exists u0. split; assumption.
Defined.

Lemma drop_app s t : gostrings.drop (String.length s) (s +:+ t) = t.
Proof.
  induction s as [|a s IH]; [reflexivity|]. rewrite append_String. exact IH.
Qed.

Lemma substring_app s t : String.substring 0 (String.length s) (s +:+ t) = s.
Proof.
  induction s as [|a s IH]; [destruct t; reflexivity|].
  rewrite append_String. simpl. rewrite IH. reflexivity.
Qed.

Lemma length_app_string s t :
  String.length (s +:+ t) = String.length s + String.length t.
Proof.
  induction s as [|a s IH]; [reflexivity|].
  rewrite append_String. simpl. rewrite IH. reflexivity.
Qed.

Lemma TrimSuffix_app s t : gostrings.TrimSuffix (s +:+ t) t = s.
Proof.
  unfold gostrings.TrimSuffix, gostrings.HasSuffix.
  rewrite length_app_string, Nat.add_sub, drop_app.
  rewrite bool_decide_eq_true_2 by reflexivity. apply substring_app.
Qed.

(** X14. [NewClient] removes one trailing slash, and only one: the client
    made from an address followed by a slash holds that address, whatever
    it ends with.  A base address with and without its trailing slash give
    the same client, hence the same targets. *)
Theorem NewClient_trims_one_slash baseURL :
  NewClient (baseURL +:+ "/") = Client.mk baseURL.
Proof. unfold NewClient. rewrite TrimSuffix_app. reflexivity. Qed.

(** X15. Scheme translation is idempotent.  The address that
    [buildWebSocketURL] derives from the base address starts with [ws://] or
    [wss://], and translating it again leaves it as it is: an address that
    already is a WebSocket address is used unchanged, and the prefix [ws://]
    is never stacked twice. *)
Theorem translate_scheme_idempotent baseURL :
  translate_scheme (translate_scheme baseURL) = translate_scheme baseURL
  /\ (gostrings.HasPrefix (translate_scheme baseURL) "ws://"
      || gostrings.HasPrefix (translate_scheme baseURL) "wss://") = true.
Proof.
  destruct (translate_scheme_prefix baseURL) as [rest ->].
  destruct rest; repeat case_match; split; reflexivity.
Qed.

(** ** The test helpers *)

Lemma substring_at_occurrence pre t post :
  String.substring (String.length pre) (String.length t) (pre +:+ t +:+ post) = t.
Proof.
  induction pre as [|a pre IH]; [exact (substring_app t post)|].
  rewrite append_String. exact IH.
Qed.

Lemma substring_0_split n : forall s,
  n <= String.length s ->
  s = String.substring 0 n s +:+ gostrings.drop n s
  /\ String.length (String.substring 0 n s) = n.
Proof.
  induction n as [|n IH]; intros s Hn.
  - destruct s; split; reflexivity.
  - destruct s as [|a s]; simpl in *; [lia|].
    destruct (IH s ltac:(lia)) as [H1 H2]. rewrite H2.
    split; [|reflexivity]. rewrite append_String. f_equal. exact H1.
Qed.

Lemma occurrence_of_substring i t : forall s,
  i + String.length t <= String.length s ->
  String.substring i (String.length t) s = t ->
  exists pre post, s = pre +:+ t +:+ post.
Proof.
  induction i as [|i IH]; intros s Hlen Hsub.
  - exists "", (gostrings.drop (String.length t) s).
    destruct (substring_0_split (String.length t) s ltac:(lia)) as [Hs _].
    rewrite Hsub in Hs. exact Hs.
  - destruct s as [|a s]; simpl in *; [lia|].
    destruct (IH s ltac:(lia) Hsub) as (pre & post & ->).
    exists (String a pre), post. reflexivity.
Qed.

Lemma containsSubstring_occurrence s t :
  containsSubstring s t = true <-> exists pre post, s = pre +:+ t +:+ post.
Proof.
  unfold containsSubstring, slice. rewrite existsb_exists. split.
  - intros (i & Hi & Hsub). apply in_seq in Hi. apply bool_decide_eq_true in Hsub.
    replace (i + String.length t - i) with (String.length t) in Hsub by lia.
    apply (occurrence_of_substring i t s); [lia | exact Hsub].
  - intros (pre & post & ->). exists (String.length pre). split.
    + apply in_seq. rewrite !length_app_string. lia.
    + apply bool_decide_eq_true.
      replace (String.length pre + String.length t - String.length pre)
        with (String.length t) by lia.
      apply substring_at_occurrence.
Qed.

(** X16. The helper [contains] of the tests is substring containment:
    it answers true exactly when the second string occurs somewhere in the
    first.  Its tests for equality, for the empty string, for a suffix and
    for a prefix add nothing to the scan done by [containsSubstring], which
    on its own already decides containment (and answers false, without
    slicing out of range, when the second string is the longer). *)
Theorem contains_is_substring s substr :
  (contains s substr = true <-> exists pre post, s = pre +:+ substr +:+ post)
  /\ contains s substr = containsSubstring s substr.
Proof.
  assert (contains s substr = containsSubstring s substr) as Heq.
  { unfold contains.
    destruct (containsSubstring s substr) eqn:Hc.
    - rewrite orb_true_r, andb_true_r. apply bool_decide_eq_true.
      apply containsSubstring_occurrence in Hc as (pre & post & ->).
      rewrite !length_app_string. lia.
    - rewrite orb_false_r.
      destruct (bool_decide (String.length substr <= String.length s)) eqn:Hlen;
        [|reflexivity].
      apply bool_decide_eq_true in Hlen. simpl.
      apply not_true_iff_false. intros H.
      apply not_true_iff_false in Hc. apply Hc.
      apply containsSubstring_occurrence.
      repeat (apply orb_true_iff in H as [H|H]).
      + apply bool_decide_eq_true in H as ->. exists "", "".
        symmetry. apply append_nil_r.
      + apply bool_decide_eq_true in H. destruct substr; [|discriminate].
        exists "", s. reflexivity.
      + apply andb_true_iff in H as [_ H]. apply bool_decide_eq_true in H.
        unfold slice in H.
        replace (String.length s - (String.length s - String.length substr))
          with (String.length substr) in H by lia.
        apply (occurrence_of_substring
                 (String.length s - String.length substr) substr s); [lia | exact H].
      + apply andb_true_iff in H as [_ H]. apply bool_decide_eq_true in H.
        unfold slice in H. rewrite Nat.sub_0_r in H.
        apply (occurrence_of_substring 0 substr s); [simpl; lia | exact H]. }
  split; [|exact Heq]. rewrite Heq. apply containsSubstring_occurrence.
Qed.

(** ** The one-shot calls *)

Lemma one_shot_Ok Do method url resp :
  one_shot Do method url = Ok resp <->
  exists req,
    http.NewRequestWithContext method url = Ok req
    /\ Do (http.Header_Set "Content-Type" "application/json" req) = Ok resp.
Proof.
  unfold one_shot. destruct (http.NewRequestWithContext method url) as [req|].
  - destruct (Do _) as [r|] eqn:HDo; split.
    + intros [= <-]. eauto.
    + intros (req' & [= <-] & H). congruence.
    + discriminate.
    + intros (req' & [= <-] & H). congruence.
  - split; [discriminate | intros (req & H & _); discriminate].
Qed.

(** X17. The one-shot calls succeed on status 200 and on nothing else.
    [KillCall] returns nil exactly when the request could be built, the
    HTTP client returned a response, and its status is 200; on status 404
    its error names the call id.  [GetActiveCalls] and [GetICEServers]
    return a value exactly when, in addition, the body decodes to that
    value: the body of a response with any other status is never decoded,
    it only appears in the error text. *)
Theorem one_shot_calls_need_status_200 Do decodeCalls decodeICE c callID :
  (KillCall Do c callID = None <->
   exists req resp,
     http.NewRequestWithContext "POST"
       (Client.baseURL c +:+ "/call/kill/" +:+ callID) = Ok req
     /\ Do (http.Header_Set "Content-Type" "application/json" req) = Ok resp
     /\ http.StatusCode resp = 200%Z)
  /\ (forall resp,
        one_shot Do "POST" (Client.baseURL c +:+ "/call/kill/" +:+ callID) = Ok resp ->
        http.StatusCode resp = 404%Z ->
        KillCall Do c callID = Some ("call with ID " +:+ callID +:+ " not found"))
  /\ (forall calls,
        GetActiveCalls Do decodeCalls c = Ok calls <->
        exists req resp,
          http.NewRequestWithContext "GET" (Client.baseURL c +:+ "/call/lists") = Ok req
          /\ Do (http.Header_Set "Content-Type" "application/json" req) = Ok resp
          /\ http.StatusCode resp = 200%Z
          /\ decodeCalls (http.Body resp) = Ok calls)
  /\ (forall servers,
        GetICEServers Do decodeICE c = Ok servers <->
        exists req resp,
          http.NewRequestWithContext "GET" (Client.baseURL c +:+ "/iceservers") = Ok req
          /\ Do (http.Header_Set "Content-Type" "application/json" req) = Ok resp
          /\ http.StatusCode resp = 200%Z
          /\ decodeICE (http.Body resp) = Ok servers).
Proof.
  split; [|split; [|split]].
  - unfold KillCall.
    destruct (one_shot Do "POST" _) as [resp|] eqn:Hs; split.
    + intros H. apply one_shot_Ok in Hs as (req & Hreq & HDo).
      exists req, resp. repeat split; try assumption.
      unfold http.StatusNotFound, http.StatusOK in H.
      repeat case_bool_decide; simpl in H; congruence.
    + intros (req & resp' & Hreq & HDo & Hst).
      assert (one_shot Do "POST" (Client.baseURL c +:+ "/call/kill/" +:+ callID)
              = Ok resp') as Hs' by (apply one_shot_Ok; eauto).
      rewrite Hs in Hs'. injection Hs' as ->.
      unfold http.StatusNotFound, http.StatusOK. rewrite Hst. reflexivity.
    + discriminate.
    + intros (req & resp' & Hreq & HDo & _).
      assert (one_shot Do "POST" (Client.baseURL c +:+ "/call/kill/" +:+ callID)
              = Ok resp') as Hs' by (apply one_shot_Ok; eauto).
      congruence.
  - intros resp Hs Hst. unfold KillCall. rewrite Hs.
    unfold http.StatusNotFound. rewrite Hst. reflexivity.
  - intros calls. unfold GetActiveCalls.
    destruct (one_shot Do "GET" _) as [resp|] eqn:Hs; simpl; split.
    + intros H. apply one_shot_Ok in Hs as (req & Hreq & HDo).
      unfold http.StatusOK in H. case_bool_decide; simpl in H; [|discriminate].
      destruct (decodeCalls _) eqn:Hd; [|discriminate]. injection H as <-.
      exists req, resp. auto.
    + intros (req & resp' & Hreq & HDo & Hst & Hd).
      assert (one_shot Do "GET" (Client.baseURL c +:+ "/call/lists") = Ok resp')
        as Hs' by (apply one_shot_Ok; eauto).
      rewrite Hs in Hs'. injection Hs' as ->.
      unfold http.StatusOK. rewrite Hst, Hd. reflexivity.
    + discriminate.
    + intros (req & resp' & Hreq & HDo & _).
      assert (one_shot Do "GET" (Client.baseURL c +:+ "/call/lists") = Ok resp')
        as Hs' by (apply one_shot_Ok; eauto).
      congruence.
  - intros servers. unfold GetICEServers.
    destruct (one_shot Do "GET" _) as [resp|] eqn:Hs; simpl; split.
    + intros H. apply one_shot_Ok in Hs as (req & Hreq & HDo).
      unfold http.StatusOK in H. case_bool_decide; simpl in H; [|discriminate].
      destruct (decodeICE _) eqn:Hd; [|discriminate]. injection H as <-.
      exists req, resp. auto.
    + intros (req & resp' & Hreq & HDo & Hst & Hd).
      assert (one_shot Do "GET" (Client.baseURL c +:+ "/iceservers") = Ok resp')
        as Hs' by (apply one_shot_Ok; eauto).
      rewrite Hs in Hs'. injection Hs' as ->.
      unfold http.StatusOK. rewrite Hst, Hd. reflexivity.
    + discriminate.
    + intros (req & resp' & Hreq & HDo & _).
      assert (one_shot Do "GET" (Client.baseURL c +:+ "/iceservers") = Ok resp')
        as Hs' by (apply one_shot_Ok; eauto).
      congruence.
Qed.

Lemma one_shot_calls_need_status_200_witness :
  KillCall demo_Do (NewClient "http://localhost:8080/") "gone"
  = Some ("call with ID " +:+ "gone" +:+ " not found").
Proof.
  refine (proj1 (proj2 (one_shot_calls_need_status_200 demo_Do
                          (fun _ => Err "unused") (fun _ => Err "unused")
                          (NewClient "http://localhost:8080/") "gone"))
            (http.mkResponse 404 "") _ eq_refl).
  reflexivity.
Defined.

(** ** Waits, Close and transport failures *)

Lemma run_app U acts1 acts2 c : run U (acts1 ++ acts2) c = run U acts2 (run U acts1 c).
Proof. apply foldl_app. Qed.

(** X18. [Close] releases a pending wait.  On a connection obtained from
    [NewConnection], a [WaitForEvent] during which [Close] is called, by
    whichever goroutine and whatever else happens before and after, can
    return through its connection-closed case, with no event and the
    connection-closed error naming the discriminator waited for. *)
Theorem Close_releases_pending_wait U wsURL before eventType d1 w cl d2 :
  fst <$> WaitForEvent U eventType (d1 ++ AClose w cl :: d2) CaseCtxDone
            (run U before (newConnection wsURL))
  = Some (None,
          Some ("connection closed while waiting for event: " +:+ eventType)).
Proof.
  assert (run U (d1 ++ AClose w cl :: d2)
            (WaitForEvent_install eventType (run U before (newConnection wsURL)))
          = run U ((before ++ AWaitInstall eventType :: d1) ++ AClose w cl :: d2)
              (newConnection wsURL)) as Heq.
  { rewrite <- app_assoc, !run_app. reflexivity. }
  pose proof (closed_after_Close U (before ++ AWaitInstall eventType :: d1)
                w cl d2 (newConnection wsURL)) as Hc.
  destruct (orderly_run U wsURL
              ((before ++ AWaitInstall eventType :: d1) ++ AClose w cl :: d2))
    as (_ & Hx & _).
  rewrite Hc in Hx. simpl in Hx.
  unfold WaitForEvent. cbn [WaitForEvent_select]. rewrite Heq, Hx. reflexivity.
Qed.

Lemma run_received_ctx_done U inputs : forall c,
  ctx_done (run U (AReceived <$> inputs) c) = ctx_done c.
Proof.
  induction inputs as [|i inputs IH]; intros c; [reflexivity|].
  rewrite fmap_cons, run_cons, IH.
  destruct (decide (done c = true)) as [Hd|Hd%not_true_is_false].
  - rewrite step_AReceived_done by exact Hd. reflexivity.
  - rewrite step_AReceived_live by exact Hd.
    pose proof (readLoop_received_control U i c) as (_ & Hx & _).
    destruct (readLoop_received U i c) as [[] c']; exact Hx.
Qed.

(** X19. A transport failure does not release a pending wait.  While the
    context is live, nothing the receive loop does, the fatal read error
    after which it returns included, makes the connection-closed case of a
    pending [WaitForEvent] ready: such a wait ends only by a matching event
    or by its timeout. *)
Theorem read_error_does_not_release_wait U eventType inputs c :
  ctx_done c = false ->
  WaitForEvent U eventType (AReceived <$> inputs) CaseCtxDone c = None.
Proof.
  intros Hx. unfold WaitForEvent. cbn [WaitForEvent_select].
  rewrite run_received_ctx_done.
  change (ctx_done (WaitForEvent_install eventType c)) with (ctx_done c).
  rewrite Hx. reflexivity.
Qed.

Lemma read_error_does_not_release_wait_witness :
  WaitForEvent demo_Unmarshal "answer"
    (AReceived <$> [demo_text 1 "ringing"; Incoming 2 (websocket.ReadError "EOF")])
    CaseCtxDone demo_listening
  = None.
Proof.
  exact (read_error_does_not_release_wait demo_Unmarshal "answer"
           [demo_text 1 "ringing"; Incoming 2 (websocket.ReadError "EOF")]
           demo_listening eq_refl).
Defined.

(** X20. Whether [buildWebSocketURL] succeeds is decided by the base
    address and the endpoint alone: it returns a target exactly when the
    translated address followed by the endpoint parses, whatever the session
    id and the dump flag are.  A session id can hold any bytes at all; it is
    escaped into the query and never makes the call fail. *)
Theorem buildWebSocketURL_fails_only_on_parse client endpoint sessionID dump :
  (exists target, buildWebSocketURL client endpoint sessionID dump = Ok target)
  <-> (exists u0,
         neturl.Parse (translate_scheme (Client.baseURL client) +:+ endpoint) = Ok u0).
Proof.
  unfold buildWebSocketURL, resolve.
  destruct (neturl.Parse _) as [u0|]; simpl; split; eauto.
  - intros [target H]. discriminate.
  - intros [u H]. discriminate.
Qed.
